(** * Font tester: the elimination tournament of [font_tester_advanced.py]

    A shallow embedding of the tournament logic of [FontTesterApp]
    (pairing of the current round, recording of a pick, round change,
    final summary) together with the properties of its natural-language
    specification.

    What is modelled and what is not:
    - fonts are family names, [string];
    - the attributes of [FontTesterApp] that the tournament reads or
      writes are fields of the record [FontTesterApp]; the widgets are
      kept only as the data they show (the two font labels and the status
      label); [default_font_size] and [comparison_history] are never
      written after [__init__] and never read by the tournament, and are
      left out;
    - [winner_counts] is a [collections.Counter]: a dict, iterated in
      insertion order, modelled as an association list in insertion order;
    - a Python exception is the [Raise] outcome of a call;
    - [update_fonts] and [start_next_round] call each other; the model
      threads a call budget through them and [update_fonts_budget] shows
      that a budget of two is always enough;
    - the progress bar is kept apart from the record, as the value last
      handed to [progress_bar.setValue]; that value, [int(a / b * 100)],
      is computed in binary64 floating point as Python computes it
      ([progress], [update_fonts_bar]);
    - the two filters of the font list and [eventFilter] are modelled as
      well; [main] (argument parsing, the dialog, [random.sample]),
      [FontSelectionDialog] and the widget set-up of [init_ui] and
      [populate_text] are not. *)

From Stdlib Require Import Ascii String DecimalString.
From Stdlib Require Import List Arith Bool Lia Permutation Sorted.
From Stdlib Require Import ZArith Floats.
From Equations Require Import Equations.
Import ListNotations.
Local Open Scope string_scope.
Local Open Scope list_scope.
Local Open Scope nat_scope.

(** ** Outcomes of a call *)

Inductive exn : Type :=
| IndexError.

Inductive result (A : Type) : Type :=
| Ok (a : A)
| Raise (e : exn)
| OutOfBudget.

Arguments Ok {A} a.
Arguments Raise {A} e.
Arguments OutOfBudget {A}.

(** ** Data *)

Definition font := string.

(** [collections.Counter]: keys in insertion order, each key once. *)
Definition Counter := list (font * nat).

(** [c[f]]: a missing key reads as 0 and is not inserted by the read. *)
Fixpoint counter_get (c : Counter) (f : font) : nat :=
  match c with
  | [] => 0
  | (g, n) :: c' => if String.eqb g f then n else counter_get c' f
  end.

(** [c[f] += 1]: an existing key keeps its place, a new key goes last. *)
Fixpoint counter_incr (c : Counter) (f : font) : Counter :=
  match c with
  | [] => [(f, 1)]
  | (g, n) :: c' =>
      if String.eqb g f then (g, S n) :: c' else (g, n) :: counter_incr c' f
  end.

Definition counter_keys (c : Counter) : list font := map fst c.

Definition counter_total (c : Counter) : nat := list_sum (map snd c).

(** [l[::2]] *)
Fixpoint every_second {A : Type} (l : list A) : list A :=
  match l with
  | [] => []
  | x :: t => x :: match t with
                   | [] => []
                   | _ :: t' => every_second t'
                   end
  end.

(** [list(zip(l[::2], l[1::2]))]: [zip] stops at the shorter slice, so the
    last entry of an odd-length list is in no pair. *)
Definition pairs (l : list font) : list (font * font) :=
  combine (every_second l) (every_second (skipn 1 l)).

(** What the status label shows.  The f-string formatting is not modelled. *)
Inductive status : Type :=
| StatusBlank
| StatusPair (round total pair npairs : nat)
| StatusResult (lines : list (font * nat)).

Record FontTesterApp : Type := mkApp {
  current_round_fonts : list font;
  round_winners : list font;
  current_pair_index : nat;
  round_number : nat;
  total_rounds : nat;
  winner_counts : Counter;
  selection_enabled : bool;
  left_font_label : font;
  right_font_label : font;
  status_label : status
}.

(** ** Operations *)

(** [calculate_total_rounds]: the [while num_fonts > 1] loop. *)
Equations? calculate_total_rounds (num_fonts : nat) : nat
  by wf num_fonts lt :=
  calculate_total_rounds num_fonts with le_lt_dec num_fonts 1 := {
    | left _ => 0
    | right _ => S (calculate_total_rounds ((num_fonts + 1) / 2))
  }.
Proof.
  change ((num_fonts + 1) / 2 < num_fonts).
  apply Nat.Div0.div_lt_upper_bound. lia.
Qed.

(** The sort of [display_result]:
    [sorted(items, key=lambda x: x[1], reverse=True)].  Python's sort is
    stable, also with [reverse=True]: entries with equal counts keep the
    order they have in [items]. *)
Fixpoint insert_desc (x : font * nat) (l : list (font * nat))
  : list (font * nat) :=
  match l with
  | [] => [x]
  | y :: l' => if snd y <=? snd x then x :: y :: l' else y :: insert_desc x l'
  end.

Definition sorted_desc (items : list (font * nat)) : list (font * nat) :=
  fold_right insert_desc [] items.

Definition result_lines (s : FontTesterApp) : list (font * nat) :=
  sorted_desc (winner_counts s).

(** [display_result].  [round_winners[0]] raises on an empty list; the
    buttons are disabled together with [selection_enabled]. *)
Definition display_result (s : FontTesterApp) : result FontTesterApp :=
  match round_winners s with
  | [] => Raise IndexError
  | winner :: _ =>
      let lines := result_lines s in
      let shown := if 6 <? length lines then firstn 6 lines else lines in
      Ok (mkApp (current_round_fonts s) (round_winners s)
                (current_pair_index s) (round_number s) (total_rounds s)
                (winner_counts s) false
                (left_font_label s) (right_font_label s)
                (StatusResult shown))
  end.

(** The first branch of [update_fonts]: the pair under the cursor is put
    on the two panels and the status line is refreshed. *)
Definition show_pair (s : FontTesterApp) (p : font * font) : FontTesterApp :=
  mkApp (current_round_fonts s) (round_winners s)
        (current_pair_index s) (round_number s) (total_rounds s)
        (winner_counts s) (selection_enabled s)
        (fst p) (snd p)
        (StatusPair (round_number s) (total_rounds s)
                    (current_pair_index s + 1)
                    (length (pairs (current_round_fonts s)))).

(** The winners that become the next round: an odd number of winners gets
    its last entry appended once more. *)
Definition carry_over (winners : list font) : list font :=
  if Nat.eqb (length winners mod 2) 1
  then winners ++ [last winners ""]
  else winners.

(** The assignments of [start_next_round] when more than one winner is
    left. *)
Definition next_round (s : FontTesterApp) : FontTesterApp :=
  mkApp (carry_over (round_winners s)) [] 0 (S (round_number s))
        (total_rounds s) (winner_counts s) (selection_enabled s)
        (left_font_label s) (right_font_label s) (status_label s).

(** [start_next_round], with the call back into [update_fonts] passed in. *)
Definition start_next_round_with
    (update : FontTesterApp -> result FontTesterApp)
    (s : FontTesterApp) : result FontTesterApp :=
  if 1 <? length (round_winners s)
  then update (next_round s)
  else display_result s.

(** [update_fonts].  [budget] bounds the depth of the mutual calls.
    [nth_error] finds a pair exactly when
    [current_pair_index < len(pairs)]. *)
Fixpoint update_fonts (budget : nat) (s : FontTesterApp)
  : result FontTesterApp :=
  match budget with
  | O => OutOfBudget
  | S budget' =>
      match nth_error (pairs (current_round_fonts s)) (current_pair_index s) with
      | Some p => Ok (show_pair s p)
      | None => start_next_round_with (update_fonts budget') s
      end
  end.

Definition start_next_round (budget : nat) (s : FontTesterApp)
  : result FontTesterApp :=
  start_next_round_with (update_fonts budget) s.

(** Depth of calls that [update_fonts] needs. *)
Definition call_budget : nat := 2.

(** The three assignments shared by [select_left] and [select_right]. *)
Definition record_winner (s : FontTesterApp) (f : font) : FontTesterApp :=
  mkApp (current_round_fonts s) (round_winners s ++ [f])
        (S (current_pair_index s)) (round_number s) (total_rounds s)
        (counter_incr (winner_counts s) f) (selection_enabled s)
        (left_font_label s) (right_font_label s) (status_label s).

Definition select_left (s : FontTesterApp) : result FontTesterApp :=
  if selection_enabled s then
    match nth_error (pairs (current_round_fonts s)) (current_pair_index s) with
    | None => Raise IndexError
    | Some (left_font, _) =>
        update_fonts call_budget (record_winner s left_font)
    end
  else Ok s.

Definition select_right (s : FontTesterApp) : result FontTesterApp :=
  if selection_enabled s then
    match nth_error (pairs (current_round_fonts s)) (current_pair_index s) with
    | None => Raise IndexError
    | Some (_, right_font) =>
        update_fonts call_budget (record_winner s right_font)
    end
  else Ok s.

(** The attributes as [__init__] sets them, and the empty labels of
    [init_ui]. *)
Definition constructed (fonts : list font) : FontTesterApp :=
  mkApp fonts [] 0 1 (calculate_total_rounds (length fonts)) []
        true "" "" StatusBlank.

(** [__init__]: the assignments, then [init_ui], which ends in
    [update_fonts]. *)
Definition init (fonts : list font) : result FontTesterApp :=
  update_fonts call_budget (constructed fonts).

(** The two ways a pick arrives: the buttons, or the arrow keys through
    [eventFilter]. *)
Inductive pick : Type :=
| Key_Left
| Key_Right.

Definition select (k : pick) (s : FontTesterApp) : result FontTesterApp :=
  match k with
  | Key_Left => select_left s
  | Key_Right => select_right s
  end.

Fixpoint run_from (s : FontTesterApp) (picks : list pick)
  : result FontTesterApp :=
  match picks with
  | [] => Ok s
  | k :: picks' =>
      match select k s with
      | Ok s' => run_from s' picks'
      | Raise e => Raise e
      | OutOfBudget => OutOfBudget
      end
  end.

Definition run (fonts : list font) (picks : list pick)
  : result FontTesterApp :=
  match init fonts with
  | Ok s => run_from s picks
  | Raise e => Raise e
  | OutOfBudget => OutOfBudget
  end.

(** ** Observations the specification names *)

(** [is_finished()]: the result has been shown. *)
Definition is_finished (s : FontTesterApp) : bool :=
  negb (selection_enabled s).

(** [get_current_pair()]: the pair [update_fonts] finds under the cursor,
    if there is one. *)
Definition get_current_pair (s : FontTesterApp) : option (font * font) :=
  nth_error (pairs (current_round_fonts s)) (current_pair_index s).

(** [float(n)] for an int [n] that a double holds exactly
    (0 <= n < 2^53), as the length of a list is. *)
Definition float_of_int (n : Z) : float := of_uint63 (Uint63.of_Z n).

(** [int(x)] for a float [x]: the integer part, towards zero.  [Prim2SF]
    reads a double as sign, mantissa [m] and exponent [e], of value
    [m * 2^e]; shifting [m] by [e] drops the fractional bits.  On an
    infinity and on a nan [int] raises; that is [None]. *)
Definition int_of_float (x : float) : option Z :=
  match Prim2SF x with
  | S754_zero _ => Some 0%Z
  | S754_finite sign m e =>
      let magnitude := Z.shiftl (Zpos m) e in
      Some (if sign then (- magnitude)%Z else magnitude)
  | S754_infinity _ => None
  | S754_nan => None
  end.

(** [int(a / b * 100)] on two ints: [a / b] is the quotient rounded to a
    double, the product with 100 is rounded again, [int] cuts off the
    fraction.  With [b = 0] Python raises at the division; here the
    quotient is an infinity or a nan, and the result is [None] as
    well. *)
Definition percent (a b : Z) : option Z :=
  int_of_float (float_of_int a / float_of_int b * 100)%float.

(** The local [progress] of [update_fonts], as the attributes of [s] give
    it.  [update_fonts] computes it only when it shows a pair. *)
Definition progress (s : FontTesterApp) : option Z :=
  percent (Z.of_nat (current_pair_index s + length (round_winners s)))
          (Z.of_nat (length (current_round_fonts s))).

(** The local [winner] of [display_result]. *)
Definition final_winner (s : FontTesterApp) : option font :=
  nth_error (round_winners s) 0.

(** States the application can be in: after construction, and after each
    pick that arrives while selection is enabled.  The index counts those
    picks. *)
Inductive reachable (fonts : list font) : nat -> FontTesterApp -> Prop :=
| reach_init : forall s,
    init fonts = Ok s -> reachable fonts 0 s
| reach_pick : forall n s k s',
    reachable fonts n s ->
    selection_enabled s = true ->
    select k s = Ok s' ->
    reachable fonts (S n) s'.

(** ** Vocabulary of the proofs *)

(** The font a pick takes from the pair on the panels. *)
Definition picked (k : pick) (p : font * font) : font :=
  match k with
  | Key_Left => fst p
  | Key_Right => snd p
  end.

(** The state [display_result] leaves behind when it does not raise. *)
Definition result_shown (s : FontTesterApp) : FontTesterApp :=
  let lines := result_lines s in
  mkApp (current_round_fonts s) (round_winners s)
        (current_pair_index s) (round_number s) (total_rounds s)
        (winner_counts s) false
        (left_font_label s) (right_font_label s)
        (StatusResult (if 6 <? length lines then firstn 6 lines else lines)).

(** The three ways a recorded pick of font [w] ends: the next pair of the
    round is shown, a new round starts, or the result is shown. *)
Inductive pick_outcome (s : FontTesterApp) (w : font) (s' : FontTesterApp)
  : Prop :=
| outcome_same_round : forall p,
    nth_error (pairs (current_round_fonts s)) (S (current_pair_index s))
      = Some p ->
    s' = show_pair (record_winner s w) p ->
    pick_outcome s w s'
| outcome_next_round : forall p,
    nth_error (pairs (current_round_fonts s)) (S (current_pair_index s))
      = None ->
    1 < length (round_winners s ++ [w]) ->
    nth_error (pairs (carry_over (round_winners s ++ [w]))) 0 = Some p ->
    s' = show_pair (next_round (record_winner s w)) p ->
    pick_outcome s w s'
| outcome_result :
    nth_error (pairs (current_round_fonts s)) (S (current_pair_index s))
      = None ->
    length (round_winners s ++ [w]) <= 1 ->
    s' = result_shown (record_winner s w) ->
    pick_outcome s w s'.

(** ** The progress bar *)

(** The bar is held as the value last handed to
    [progress_bar.setValue], [None] before the first call.

    [update_fonts] on the bar: it calls [setValue(progress)] in the
    branch that shows a pair and nowhere else; on the way through
    [start_next_round] to [display_result] the bar is not touched.
    [budget] is the one of [update_fonts].  Were [progress] to raise,
    [setValue] would not be reached. *)
Fixpoint update_fonts_bar (budget : nat) (s : FontTesterApp)
    (bar : option Z) : option Z :=
  match budget with
  | O => bar
  | S budget' =>
      match nth_error (pairs (current_round_fonts s)) (current_pair_index s) with
      | Some _ =>
          match progress s with
          | Some v => Some v
          | None => bar
          end
      | None =>
          if 1 <? length (round_winners s)
          then update_fonts_bar budget' (next_round s) bar
          else bar
      end
  end.

(** [select_left] and [select_right] on the bar. *)
Definition select_bar (k : pick) (s : FontTesterApp) (bar : option Z)
  : option Z :=
  if selection_enabled s then
    match nth_error (pairs (current_round_fonts s)) (current_pair_index s) with
    | None => bar
    | Some p => update_fonts_bar call_budget (record_winner s (picked k p)) bar
    end
  else bar.

(** [__init__] on the bar. *)
Definition init_bar (fonts : list font) : option Z :=
  update_fonts_bar call_budget (constructed fonts) None.

(** The reachable states together with the bar. *)
Inductive reachable_bar (fonts : list font)
  : nat -> FontTesterApp -> option Z -> Prop :=
| reach_bar_init : forall s,
    init fonts = Ok s -> reachable_bar fonts 0 s (init_bar fonts)
| reach_bar_pick : forall n s bar k s',
    reachable_bar fonts n s bar ->
    selection_enabled s = true ->
    select k s = Ok s' ->
    reachable_bar fonts (S n) s' (select_bar k s bar).

(** The numbers [start], [start + 1], ... ([n] of them). *)
Fixpoint zrange (start : Z) (n : nat) : list Z :=
  match n with
  | O => []
  | S n' => start :: zrange (start + 1) n'
  end.

(** [v] is an integer from 0 to 100, and the exact value of
    [100 * a / b] lies from [v] to below [v + 2]. *)
Definition near_percent (a b v : Z) : bool :=
  ((0 <=? v) && (v <=? 100)
   && (v * b <=? 100 * a) && (100 * a <? (v + 2) * b))%Z.

(** Evaluates [percent] on [a + 2], [a + 4], ... ([n] values) over [b],
    [v] being the value on [a]: each value is near the exact one and not
    below the one before. *)
Fixpoint percent_steps (b a v : Z) (n : nat) : bool :=
  match n with
  | O => true
  | S n' =>
      match percent (a + 2) b with
      | Some v' =>
          near_percent (a + 2) b v' && (v <=? v')%Z
          && percent_steps b (a + 2) v' n'
      | None => false
      end
  end.

(** The same from 0 over a round of [b] fonts. *)
Definition percent_round (b : Z) : bool :=
  match percent 0 b with
  | Some v => near_percent 0 b v && percent_steps b 0 v (Z.to_nat (b / 2))
  | None => false
  end.

(** Names for a list of [n] fonts. *)
Definition font_names (n : nat) : list font :=
  map (fun i => String.append "F" (NilZero.string_of_uint (Nat.to_uint i)))
      (seq 0 n).

(** [reach_by] with the bar. *)
Ltac reach_bar_steps fonts n s bar H picks :=
  lazymatch picks with
  | nil => exact H
  | cons ?x ?rest =>
      let r := eval vm_compute in (select x s) in
      let bar' := eval vm_compute in (select_bar x s bar) in
      lazymatch r with
      | Ok ?s' =>
          let H' := fresh "R" in
          assert (H' : reachable_bar fonts (S n) s' bar')
            by (refine (eq_ind _ (reachable_bar fonts (S n) s')
                               (reach_bar_pick fonts n s bar x s' H _ _)
                               bar' _);
                vm_compute; reflexivity);
          reach_bar_steps fonts (S n) s' bar' H' rest
      end
  end.

Ltac reach_bar_by fonts picks :=
  let r := eval vm_compute in (init fonts) in
  let bar0 := eval vm_compute in (init_bar fonts) in
  lazymatch r with
  | Ok ?s0 =>
      let H0 := fresh "R" in
      assert (H0 : reachable_bar fonts 0 s0 bar0)
        by (refine (eq_ind _ (reachable_bar fonts 0 s0)
                           (reach_bar_init fonts s0 _) bar0 _);
            vm_compute; reflexivity);
      reach_bar_steps fonts 0 s0 bar0 H0 picks
  end.

(** Position of the first occurrence of [f] in [l] ([l.index(f)]). *)
Fixpoint index_of (f : font) (l : list font) : nat :=
  match l with
  | [] => 0
  | x :: t => if String.eqb x f then 0 else S (index_of f t)
  end.

(** [f] comes before [g] in the input. *)
Definition earlier (fonts : list font) (f g : font) : Prop :=
  index_of f fonts < index_of g fonts.

(** The order of the final ranking the specification asks for: higher
    count first, and among equal counts the font that comes first in the
    input. *)
Definition ranks_before (fonts : list font) (x y : font * nat) : Prop :=
  snd y < snd x \/ (snd x = snd y /\ earlier fonts (fst x) (fst y)).

(** No font of one pair occurs in another pair. *)
Fixpoint separated (ps : list (font * font)) : Prop :=
  match ps with
  | [] => True
  | p :: ps' =>
      Forall (fun q => fst p <> fst q /\ fst p <> snd q /\
                       snd p <> fst q /\ snd p <> snd q) ps'
      /\ separated ps'
  end.

(** What holds of every state the application reaches, whatever the
    input. *)
Record shape_inv (s : FontTesterApp) : Prop := {
  si_cursor : current_pair_index s = length (round_winners s);
  si_pending : selection_enabled s = true ->
               current_pair_index s < length (pairs (current_round_fonts s));
  si_stopped : selection_enabled s = false ->
               length (round_winners s) = 1 /\
               current_pair_index s = length (pairs (current_round_fonts s));
  si_size : 2 <= length (current_round_fonts s);
  si_round : 1 <= round_number s;
  si_keys : NoDup (counter_keys (winner_counts s));
  si_panels : selection_enabled s = true ->
              nth_error (pairs (current_round_fonts s)) (current_pair_index s)
              = Some (left_font_label s, right_font_label s);
  si_status : selection_enabled s = false ->
              status_label s = StatusResult (firstn 6 (result_lines s))
}.

(** What holds in addition when the input has no font twice: the counts
    follow the rounds, and the keys of the counter stand in input order. *)
Record tally_inv (fonts : list font) (s : FontTesterApp) : Prop := {
  ti_won : forall f, In f (round_winners s) ->
           counter_get (winner_counts s) f = round_number s;
  ti_lost : forall f, ~ In f (round_winners s) ->
            counter_get (winner_counts s) f < round_number s;
  ti_waiting : forall p,
      In p (skipn (current_pair_index s) (pairs (current_round_fonts s))) ->
      S (counter_get (winner_counts s) (fst p)) = round_number s /\
      S (counter_get (winner_counts s) (snd p)) = round_number s;
  ti_separated : separated (pairs (current_round_fonts s));
  ti_order : StronglySorted (earlier fonts) (counter_keys (winner_counts s));
  ti_first : round_number s = 1 ->
             current_round_fonts s = fonts /\
             Forall (fun f => index_of f fonts < 2 * current_pair_index s)
                    (counter_keys (winner_counts s));
  ti_positive : Forall (fun e => 0 < snd e) (winner_counts s);
  ti_nodup : NoDup (round_winners s)
}.

(** The number of picks the code takes on [n] fonts: one per pair of the
    round, then, when more than one winner is left, the picks of a round
    with the winners (one more entry when their number is odd). *)
Equations? picks_needed (n : nat) : nat by wf n lt :=
  picks_needed n with le_lt_dec (n / 2) 1 := {
    | left _ => n / 2
    | right _ => n / 2 + picks_needed (n / 2 + (n / 2) mod 2)
  }.
Proof.
  change (n / 2 + (n / 2) mod 2 < n).
  match goal with H : 1 < _ |- _ => change (1 < n / 2) in H end.
  pose proof (Nat.div_mod_eq n 2).
  assert ((n / 2) mod 2 < 2) by (apply Nat.mod_upper_bound; lia).
  lia.
Qed.

(** The picks of the rounds after a round with [w] pairs. *)
Definition later_rounds (w : nat) : nat :=
  if w <=? 1 then 0 else picks_needed (w + w mod 2).

(** The picks still to come in state [s]. *)
Definition picks_left (s : FontTesterApp) : nat :=
  if selection_enabled s
  then length (pairs (current_round_fonts s)) - current_pair_index s
       + later_rounds (length (pairs (current_round_fonts s)))
  else 0.

(** Builds [reachable fonts n s] for a closed input by running the picks
    one after the other, each state computed before the next pick. *)
Ltac reach_steps fonts n s H picks :=
  lazymatch picks with
  | nil => exact H
  | cons ?x ?rest =>
      let r := eval vm_compute in (select x s) in
      lazymatch r with
      | Ok ?s' =>
          let H' := fresh "R" in
          assert (H' : reachable fonts (S n) s')
            by (apply (reach_pick fonts n s x s' H); vm_compute; reflexivity);
          reach_steps fonts (S n) s' H' rest
      end
  end.

Ltac reach_by fonts picks :=
  let r := eval vm_compute in (init fonts) in
  lazymatch r with
  | Ok ?s0 =>
      let H0 := fresh "R" in
      assert (H0 : reachable fonts 0 s0)
        by (apply reach_init; vm_compute; reflexivity);
      reach_steps fonts 0 s0 H0 picks
  end.

Ltac distinct_fonts :=
  repeat (constructor; [simpl; intuition discriminate|]); constructor.

(** ** The rest of the application *)

(** [all(ord(c) < 128 for c in f)].  A name is held as its UTF-8 bytes:
    a character is below 128 exactly when it is a single byte below 128,
    and "@" is such a byte. *)
Fixpoint all_ascii (f : string) : bool :=
  match f with
  | EmptyString => true
  | String c f' => (nat_of_ascii c <? 128) && all_ascii f'
  end.

(** [filter_english_fonts] *)
Definition filter_english_fonts (fonts : list font) : list font :=
  filter (fun f => negb (prefix "@" f) && all_ascii f) fonts.

(** [needle in hay] on strings. *)
Fixpoint contains (needle hay : string) : bool :=
  prefix needle hay
  || match hay with
     | EmptyString => false
     | String _ hay' => contains needle hay'
     end.

(** [filter_fonts_by_string].  [lower] stands for Python's [str.lower],
    whose Unicode case tables are not part of this program. *)
Definition filter_fonts_by_string (lower : string -> string)
    (fonts : list font) (filter_string : string) : list font :=
  let filter_string := lower filter_string in
  filter (fun f => contains filter_string (lower f)) fonts.

(** [str.lower] on a name made of ASCII characters: "A" to "Z" become
    "a" to "z". *)
Definition lower_ascii_char (c : ascii) : ascii :=
  let n := nat_of_ascii c in
  if (65 <=? n) && (n <=? 90) then ascii_of_nat (n + 32) else c.

Fixpoint ascii_lower (s : string) : string :=
  match s with
  | EmptyString => EmptyString
  | String c s' => String (lower_ascii_char c) (ascii_lower s')
  end.

(** An event as [eventFilter] looks at it: a key press, with the arrow
    key if it is one of the two, or any other event. *)
Inductive event : Type :=
| KeyPress (key : option pick)
| OtherEvent.

(** What [eventFilter] returns: [True], or whatever the base class's
    [eventFilter] returns. *)
Inductive filtered : Type :=
| Handled
| PassedToBase.

(** [eventFilter] *)
Definition eventFilter (s : FontTesterApp) (ev : event)
  : result (FontTesterApp * filtered) :=
  match ev with
  | KeyPress key =>
      if selection_enabled s then
        match key with
        | Some k =>
            match select k s with
            | Ok s' => Ok (s', Handled)
            | Raise e => Raise e
            | OutOfBudget => OutOfBudget
            end
        | None => Ok (s, PassedToBase)
        end
      else Ok (s, PassedToBase)
  | OtherEvent => Ok (s, PassedToBase)
  end.

Fixpoint run_events (s : FontTesterApp) (evs : list event)
  : result FontTesterApp :=
  match evs with
  | [] => Ok s
  | ev :: evs' =>
      match eventFilter s ev with
      | Ok (s', _) => run_events s' evs'
      | Raise e => Raise e
      | OutOfBudget => OutOfBudget
      end
  end.

(** The fonts of a list of pairs, in order. *)
Definition flat_pairs (ps : list (font * font)) : list font :=
  flat_map (fun p => [fst p; snd p]) ps.

(** The font of a pair that a pick does not take. *)
Definition unpicked (k : pick) (p : font * font) : font :=
  match k with
  | Key_Left => snd p
  | Key_Right => fst p
  end.

(** The rounds stay within the number announced at construction. *)
Record rounds_inv (fonts : list font) (s : FontTesterApp) : Prop := {
  ri_total : total_rounds s = calculate_total_rounds (length fonts);
  ri_round : round_number s <= total_rounds s;
  ri_size : length (current_round_fonts s)
            <= 2 ^ S (total_rounds s - round_number s)
}.

(** Every font the application holds comes from the input. *)
Record origin_inv (fonts : list font) (s : FontTesterApp) : Prop := {
  oi_round : incl (current_round_fonts s) fonts;
  oi_winners : incl (round_winners s) (current_round_fonts s);
  oi_keys : incl (counter_keys (winner_counts s)) fonts
}.

(** A font that is out of the tournament: its count is [c], it is not
    among the winners of the round, and it is in no pair still to be
    shown. *)
Record eliminated (l : font) (c : nat) (s : FontTesterApp) : Prop := {
  el_count : counter_get (winner_counts s) l = c;
  el_winners : ~ In l (round_winners s);
  el_pairs : forall p,
      In p (skipn (current_pair_index s) (pairs (current_round_fonts s))) ->
      fst p <> l /\ snd p <> l
}.

(** * Properties *)

(** ** Worked runs *)

Example run_ABCD :
  exists s, run ["A"; "B"; "C"; "D"] [Key_Left; Key_Right; Key_Left] = Ok s
            /\ is_finished s = true
            /\ final_winner s = Some "A"
            /\ winner_counts s = [("A", 2); ("D", 1)].
Proof.
  let r := eval vm_compute in
    (run ["A"; "B"; "C"; "D"] [Key_Left; Key_Right; Key_Left]) in
  lazymatch r with Ok ?s => exists s end.
  split; [vm_compute; reflexivity|]. repeat split.
Qed.

Example total_rounds_3 : calculate_total_rounds 3 = 2.
Proof. reflexivity. Qed.

(** ** Pairing *)

Lemma pairs_nil : pairs [] = [].
Proof. reflexivity. Qed.

Lemma pairs_one (a : font) : pairs [a] = [].
Proof. reflexivity. Qed.

Lemma pairs_cons2 (a b : font) (l : list font) :
  pairs (a :: b :: l) = (a, b) :: pairs l.
Proof.
  unfold pairs. simpl. destruct l; reflexivity.
Qed.

(** Induction over a list two entries at a time. *)
Lemma list_ind_by_two (A : Type) (P : list A -> Prop) :
  P [] -> (forall a, P [a]) -> (forall a b l, P l -> P (a :: b :: l)) ->
  forall l, P l.
Proof.
  intros H0 H1 H2.
  assert (H : forall l, P l /\ forall a, P (a :: l)).
  { induction l as [|b l [IHl IHl']]; split; auto. }
  intro l. apply H.
Qed.

Lemma pairs_length (l : list font) : length (pairs l) = length l / 2.
Proof.
  induction l as [| a | a b l IH] using list_ind_by_two; try reflexivity.
  rewrite pairs_cons2. cbn [length]. rewrite IH.
  replace (S (S (length l))) with (length l + 1 * 2) by lia.
  rewrite Nat.div_add by lia. lia.
Qed.

Lemma pairs_app_even (l1 l2 : list font) :
  Nat.even (length l1) = true -> pairs (l1 ++ l2) = pairs l1 ++ pairs l2.
Proof.
  induction l1 as [| a | a b l1 IH] using list_ind_by_two; intro H.
  - reflexivity.
  - discriminate.
  - cbn [app]. rewrite !pairs_cons2, IH; auto.
Qed.

(** ** The mutual calls of [update_fonts] and [start_next_round] end *)

Lemma carry_over_length (ws : list font) :
  length (carry_over ws) = length ws + length ws mod 2.
Proof.
  unfold carry_over.
  assert (length ws mod 2 < 2) by (apply Nat.mod_upper_bound; lia).
  destruct (Nat.eqb_spec (length ws mod 2) 1) as [E|E].
  - rewrite length_app, E. reflexivity.
  - lia.
Qed.

Lemma pairs_first (l : list font) :
  2 <= length l -> exists p, nth_error (pairs l) 0 = Some p.
Proof.
  destruct l as [|a [|b l]]; cbn [length]; try lia.
  intros _. rewrite pairs_cons2. simpl. eauto.
Qed.

Lemma next_round_first_pair (s : FontTesterApp) :
  1 < length (round_winners s) ->
  exists p, nth_error (pairs (current_round_fonts (next_round s)))
                      (current_pair_index (next_round s)) = Some p.
Proof.
  intro H. apply pairs_first. simpl. rewrite carry_over_length. lia.
Qed.

(** One unfolding of [update_fonts] with the inner call resolved: the call
    made by [start_next_round] always finds a pair to show. *)
Lemma update_fonts_eq (n : nat) (s : FontTesterApp) :
  update_fonts (S (S n)) s =
  match nth_error (pairs (current_round_fonts s)) (current_pair_index s) with
  | Some p => Ok (show_pair s p)
  | None =>
      if 1 <? length (round_winners s)
      then match nth_error (pairs (current_round_fonts (next_round s))) 0 with
           | Some p => Ok (show_pair (next_round s) p)
           | None => OutOfBudget
           end
      else display_result s
  end.
Proof.
  cbn [update_fonts]. destruct (nth_error _ _) as [p|]; [reflexivity|].
  unfold start_next_round_with.
  destruct (Nat.ltb_spec 1 (length (round_winners s))) as [H|H];
    [|reflexivity].
  destruct (next_round_first_pair s H) as [p Hp].
  change (current_pair_index (next_round s)) with 0 in *.
  rewrite Hp. reflexivity.
Qed.

(** A budget of two is enough for every state: more budget changes
    nothing, and the budget is never used up. *)
Lemma update_fonts_budget (n : nat) (s : FontTesterApp) :
  update_fonts (call_budget + n) s = update_fonts call_budget s
  /\ update_fonts call_budget s <> OutOfBudget.
Proof.
  unfold call_budget. cbn [Nat.add]. rewrite !update_fonts_eq.
  split; [reflexivity|].
  destruct (nth_error _ _) as [p|]; [discriminate|].
  destruct (Nat.ltb_spec 1 (length (round_winners s))) as [H|H].
  - destruct (next_round_first_pair s H) as [p Hp].
    change (current_pair_index (next_round s)) with 0 in Hp.
    rewrite Hp. discriminate.
  - unfold display_result. destruct (round_winners s); discriminate.
Qed.

(** ** What one call does *)

Lemma display_result_eq (s : FontTesterApp) :
  display_result s =
  match round_winners s with
  | [] => Raise IndexError
  | _ :: _ => Ok (result_shown s)
  end.
Proof. reflexivity. Qed.

Lemma select_eq (k : pick) (s : FontTesterApp) :
  selection_enabled s = true ->
  select k s =
  match nth_error (pairs (current_round_fonts s)) (current_pair_index s) with
  | None => Raise IndexError
  | Some p => update_fonts call_budget (record_winner s (picked k p))
  end.
Proof.
  intro H. destruct k; cbn [select]; unfold select_left, select_right;
    rewrite H; destruct (nth_error _ _) as [[a b]|]; reflexivity.
Qed.

Lemma select_disabled (k : pick) (s : FontTesterApp) :
  selection_enabled s = false -> select k s = Ok s.
Proof.
  intro H. destruct k; cbn [select]; unfold select_left, select_right;
    rewrite H; reflexivity.
Qed.

(** After the three assignments of a pick, [update_fonts] ends in one of
    the three outcomes and never raises. *)
Lemma record_winner_outcome (s : FontTesterApp) (w : font) :
  exists s', update_fonts call_budget (record_winner s w) = Ok s'
             /\ pick_outcome s w s'.
Proof.
  unfold call_budget. rewrite update_fonts_eq.
  cbn [record_winner current_round_fonts current_pair_index round_winners].
  destruct (nth_error (pairs (current_round_fonts s))
                      (S (current_pair_index s))) as [p|] eqn:E.
  - eexists. split; [reflexivity|]. eapply outcome_same_round; eauto.
  - destruct (Nat.ltb_spec 1 (length (round_winners s ++ [w]))) as [H|H].
    + destruct (next_round_first_pair (record_winner s w) H) as [p Hp].
      cbn [next_round record_winner current_round_fonts current_pair_index
           round_winners] in Hp |- *.
      rewrite Hp. eexists. split; [reflexivity|].
      eapply outcome_next_round; eauto.
    + rewrite display_result_eq. cbn [record_winner round_winners].
      destruct (round_winners s ++ [w]) eqn:E'.
      * destruct (round_winners s); discriminate.
      * eexists. split; [reflexivity|]. apply outcome_result; auto.
        rewrite E'. exact H.
Qed.

(** A pick on a pending pair is always recorded. *)
Lemma select_pending (k : pick) (s : FontTesterApp) (p : font * font) :
  selection_enabled s = true ->
  nth_error (pairs (current_round_fonts s)) (current_pair_index s) = Some p ->
  exists s', select k s = Ok s' /\ pick_outcome s (picked k p) s'.
Proof.
  intros H E. rewrite select_eq, E by exact H. apply record_winner_outcome.
Qed.

Lemma select_outcome (k : pick) (s s' : FontTesterApp) :
  selection_enabled s = true ->
  select k s = Ok s' ->
  exists p,
    nth_error (pairs (current_round_fonts s)) (current_pair_index s) = Some p
    /\ pick_outcome s (picked k p) s'.
Proof.
  intros H E. rewrite select_eq in E by exact H.
  destruct (nth_error _ _) as [p|] eqn:Ep; [|discriminate].
  exists p. split; [reflexivity|].
  destruct (record_winner_outcome s (picked k p)) as (s'' & E'' & O).
  congruence.
Qed.

Lemma init_large (fonts : list font) :
  2 <= length fonts ->
  exists p, nth_error (pairs fonts) 0 = Some p
            /\ init fonts = Ok (show_pair (constructed fonts) p).
Proof.
  intro H. destruct (pairs_first fonts H) as [p Hp]. exists p.
  split; [exact Hp|].
  unfold init, call_budget. rewrite update_fonts_eq.
  cbn [constructed current_round_fonts current_pair_index].
  rewrite Hp. reflexivity.
Qed.

Lemma init_small (fonts : list font) :
  length fonts < 2 -> init fonts = Raise IndexError.
Proof.
  intro H. destruct fonts as [|a [|b l]]; cbn [length] in H; try lia;
    reflexivity.
Qed.

(** ** The counter *)

Lemma counter_get_incr_same (c : Counter) (f : font) :
  counter_get (counter_incr c f) f = S (counter_get c f).
Proof.
  induction c as [|[g n] c IH]; simpl.
  - rewrite String.eqb_refl. reflexivity.
  - destruct (String.eqb_spec g f) as [E|E]; simpl.
    + subst. rewrite String.eqb_refl. reflexivity.
    + destruct (String.eqb_spec g f); [contradiction|]. exact IH.
Qed.

Lemma counter_get_incr_other (c : Counter) (f g : font) :
  g <> f -> counter_get (counter_incr c f) g = counter_get c g.
Proof.
  intro H. induction c as [|[h n] c IH]; simpl.
  - destruct (String.eqb_spec f g); [congruence|reflexivity].
  - destruct (String.eqb_spec h f) as [E|E]; simpl.
    + subst h. destruct (String.eqb_spec f g); [congruence|reflexivity].
    + destruct (String.eqb_spec h g); [reflexivity|exact IH].
Qed.

Lemma counter_get_incr_le (c : Counter) (f g : font) :
  counter_get c g <= counter_get (counter_incr c f) g.
Proof.
  destruct (string_dec g f) as [->|H].
  - rewrite counter_get_incr_same. lia.
  - rewrite counter_get_incr_other by exact H. lia.
Qed.

Lemma counter_total_incr (c : Counter) (f : font) :
  counter_total (counter_incr c f) = S (counter_total c).
Proof.
  unfold counter_total. induction c as [|[g n] c IH]; simpl.
  - reflexivity.
  - destruct (String.eqb g f); simpl; [reflexivity|]. rewrite IH. lia.
Qed.

Lemma counter_keys_incr_old (c : Counter) (f : font) :
  In f (counter_keys c) -> counter_keys (counter_incr c f) = counter_keys c.
Proof.
  unfold counter_keys. induction c as [|[g n] c IH]; simpl; [tauto|].
  intros [H|H]; destruct (String.eqb_spec g f); simpl; try congruence.
  rewrite IH; auto.
Qed.

Lemma counter_keys_incr_new (c : Counter) (f : font) :
  ~ In f (counter_keys c) ->
  counter_keys (counter_incr c f) = counter_keys c ++ [f].
Proof.
  unfold counter_keys. induction c as [|[g n] c IH]; simpl; [reflexivity|].
  intro H. destruct (String.eqb_spec g f); simpl; [tauto|].
  rewrite IH; tauto.
Qed.

Lemma counter_keys_incr_nodup (c : Counter) (f : font) :
  NoDup (counter_keys c) -> NoDup (counter_keys (counter_incr c f)).
Proof.
  intro H. destruct (in_dec string_dec f (counter_keys c)) as [I|I].
  - rewrite counter_keys_incr_old; assumption.
  - rewrite counter_keys_incr_new by assumption.
    apply NoDup_app; [assumption| repeat constructor; simpl; tauto |].
    intros x Hx [<-|[]]. contradiction.
Qed.

Lemma counter_incr_positive (c : Counter) (f : font) :
  Forall (fun e => 0 < snd e) c ->
  Forall (fun e => 0 < snd e) (counter_incr c f).
Proof.
  induction 1 as [|[g n] c Hn Hc IH]; simpl.
  - repeat constructor.
  - destruct (String.eqb g f); constructor; simpl in *; auto; lia.
Qed.

Lemma counter_key_iff_positive (c : Counter) (f : font) :
  Forall (fun e => 0 < snd e) c ->
  (In f (counter_keys c) <-> 0 < counter_get c f).
Proof.
  unfold counter_keys. induction 1 as [|[g n] c Hn Hc IH]; simpl.
  - split; [tauto|lia].
  - destruct (String.eqb_spec g f) as [E|E]; simpl in *.
    + split; auto.
    + rewrite <- IH. split; [intros [?|?]; [contradiction|assumption]|auto].
Qed.

Lemma counter_get_entry (c : Counter) (f : font) (n : nat) :
  NoDup (counter_keys c) -> In (f, n) c -> counter_get c f = n.
Proof.
  unfold counter_keys. induction c as [|[g m] c IH]; simpl; [tauto|].
  intros Hnd [H|H].
  - inversion H; subst. rewrite String.eqb_refl. reflexivity.
  - inversion Hnd as [|? ? Hg Hc]; subst.
    destruct (String.eqb_spec g f) as [E|E].
    + subst g. exfalso. apply Hg. apply (in_map fst) in H. exact H.
    + apply IH; assumption.
Qed.

(** ** Shape of the reachable states *)

Lemma shape_init (fonts : list font) (s : FontTesterApp) :
  init fonts = Ok s -> shape_inv s.
Proof.
  intro H. destruct (le_lt_dec 2 (length fonts)) as [L|L].
  - destruct (init_large fonts L) as (p & Hp & E).
    rewrite E in H. injection H as <-.
    constructor; cbn [show_pair constructed current_pair_index round_winners
      selection_enabled current_round_fonts round_number winner_counts
      left_font_label right_font_label status_label
      counter_keys map length]; auto; try discriminate.
    + intros _. apply nth_error_Some. congruence.
    + constructor.
    + intros _. rewrite Hp. destruct p; reflexivity.
  - rewrite init_small in H by exact L. discriminate.
Qed.

Lemma shown_lines_firstn (lines : list (font * nat)) :
  (if 6 <? length lines then firstn 6 lines else lines) = firstn 6 lines.
Proof.
  destruct (Nat.ltb_spec 6 (length lines)); [reflexivity|].
  symmetry. apply firstn_all2. lia.
Qed.

Lemma shape_pick (s s' : FontTesterApp) (w : font) :
  shape_inv s ->
  selection_enabled s = true ->
  pick_outcome s w s' ->
  shape_inv s'.
Proof.
  intros I Hsel O.
  pose proof (si_pending s I Hsel) as Hp.
  pose proof (si_cursor s I) as Hc.
  pose proof (counter_keys_incr_nodup (winner_counts s) w (si_keys s I)) as Hk.
  destruct O as [p E ->|p E L Ep ->|E L ->];
    constructor;
    cbn [show_pair record_winner next_round result_shown
      current_pair_index round_winners selection_enabled
      current_round_fonts round_number winner_counts
      left_font_label right_font_label status_label fst snd];
    try rewrite length_app; cbn [length];
    try exact Hk; try (apply (si_size s I)); try (intro; congruence);
    try (pose proof (si_round s I); lia); try lia.
  - intros _. apply nth_error_Some. congruence.
  - intros _. rewrite E. destruct p; reflexivity.
  - intros _. apply nth_error_Some. congruence.
  - rewrite carry_over_length, length_app. cbn [length].
    rewrite length_app in L. cbn [length] in L. lia.
  - intros _. rewrite Ep. destruct p; reflexivity.
  - intros _. rewrite length_app in L. cbn [length] in L.
    apply nth_error_None in E. lia.
  - intros _. f_equal. apply shown_lines_firstn.
Qed.

Lemma reachable_shape (fonts : list font) (n : nat) (s : FontTesterApp) :
  reachable fonts n s -> shape_inv s.
Proof.
  induction 1 as [s H|n s k s' R IH Hsel E].
  - eapply shape_init; eauto.
  - destruct (select_outcome k s s' Hsel E) as (p & _ & O).
    eapply shape_pick; eauto.
Qed.

Lemma reachable_size (fonts : list font) (n : nat) (s : FontTesterApp) :
  reachable fonts n s -> 2 <= length fonts.
Proof.
  induction 1 as [s H|]; [|assumption].
  destruct (le_lt_dec 2 (length fonts)); [assumption|].
  rewrite init_small in H by assumption. discriminate.
Qed.

(** ** Effect of a recorded pick on the fields *)

Lemma pick_outcome_counts (s s' : FontTesterApp) (w : font) :
  pick_outcome s w s' ->
  winner_counts s' = counter_incr (winner_counts s) w.
Proof. intros [p E ->|p E L Ep ->|E L ->]; reflexivity. Qed.

Lemma pick_outcome_cursor (s s' : FontTesterApp) (w : font) :
  pick_outcome s w s' ->
  (round_number s' = round_number s /\
   current_round_fonts s' = current_round_fonts s /\
   current_pair_index s' = S (current_pair_index s) /\
   round_winners s' = round_winners s ++ [w])
  \/
  (round_number s' = S (round_number s) /\
   current_round_fonts s' = carry_over (round_winners s ++ [w]) /\
   current_pair_index s' = 0 /\
   round_winners s' = []).
Proof.
  intros [p E ->|p E L Ep ->|E L ->]; [left|right|left]; repeat split.
Qed.

(** ** Picks after the result is shown *)

(** C5, as the code has it.  Once the result is shown
    ([selection_enabled] is false, so [is_finished] holds) a pick from
    either button or key is ignored: the call returns normally, raises
    nothing, and leaves every field as it was. *)
Theorem pick_after_finish_ignored (s : FontTesterApp) (k : pick) :
  is_finished s = true -> select k s = Ok s.
Proof.
  unfold is_finished. intro H. apply select_disabled.
  destruct (selection_enabled s); [discriminate|reflexivity].
Qed.

Lemma pick_after_finish_ignored_witness :
  exists s, run ["A"; "B"] [Key_Left] = Ok s /\ select Key_Right s = Ok s.
Proof.
  eexists. split; [reflexivity|].
  apply pick_after_finish_ignored. reflexivity.
Defined.

(** C5, as the specification states it, fails: in the finished state
    reached on two fonts after one pick, no pick raises an error. *)
Lemma pick_after_finish_raises_nothing :
  exists s, run ["A"; "B"] [Key_Left] = Ok s
            /\ is_finished s = true
            /\ forall k e, select k s <> Raise e.
Proof.
  eexists. split; [reflexivity|]. split; [reflexivity|].
  intros [|] e; discriminate.
Qed.

(** ** Construction *)

(** C6.  With fewer than two fonts the constructor does not return: the
    first [update_fonts] finds no pair, [start_next_round] finds no
    winner and [display_result] raises on [round_winners[0]].  The
    exception that leaves [__init__] is Python's [IndexError]. *)
Theorem init_rejects_short_input (fonts : list font) :
  length fonts < 2 -> init fonts = Raise IndexError.
Proof. apply init_small. Qed.

Lemma init_rejects_short_input_witness : init ["A"] = Raise IndexError.
Proof. apply init_rejects_short_input. simpl. lia. Defined.

(** ** Cursor and winners *)

(** C9.  In every reachable state the pair cursor equals the number of
    winners of the round.  While a pair is shown, a pick of either side
    is recorded, and what it does to the two depends on the pair it
    judged.  If another pair of the round is left, the picked font is
    appended to the winners and the cursor goes up by one.  If it was the
    last pair of the round and the round has more than one winner, the
    picked font counted, then the winners with the picked font appended
    (and the last one repeated when their number is odd) become the next
    round, the round number goes up by one, the cursor is zero and the
    winners are empty.  If it was the last pair and the picked font is
    the only winner, both go up by one and the result is shown. *)
Theorem cursor_equals_winner_count
    (fonts : list font) (n : nat) (s : FontTesterApp) :
  reachable fonts n s ->
  current_pair_index s = length (round_winners s)
  /\ (selection_enabled s = true ->
      forall k, exists p s',
        get_current_pair s = Some p
        /\ select k s = Ok s'
        /\ (S (current_pair_index s) < length (pairs (current_round_fonts s)) ->
            current_pair_index s' = S (current_pair_index s)
            /\ round_winners s' = round_winners s ++ [picked k p]
            /\ round_number s' = round_number s
            /\ current_round_fonts s' = current_round_fonts s)
        /\ (S (current_pair_index s) = length (pairs (current_round_fonts s)) ->
            1 < S (length (round_winners s)) ->
            current_pair_index s' = 0
            /\ round_winners s' = []
            /\ round_number s' = S (round_number s)
            /\ current_round_fonts s'
               = carry_over (round_winners s ++ [picked k p]))
        /\ (S (current_pair_index s) = length (pairs (current_round_fonts s)) ->
            S (length (round_winners s)) <= 1 ->
            current_pair_index s' = S (current_pair_index s)
            /\ round_winners s' = round_winners s ++ [picked k p]
            /\ is_finished s' = true)).
Proof.
  intro R. pose proof (reachable_shape fonts n s R) as I.
  split; [exact (si_cursor s I)|].
  intros Hsel k.
  pose proof (si_panels s I Hsel) as Hp.
  destruct (select_pending k s _ Hsel Hp) as (s' & E & O).
  exists (left_font_label s, right_font_label s), s'.
  split; [exact Hp|]. split; [exact E|].
  destruct O as [q Eq ->|q Eq L Ec ->|Eq L ->].
  - assert (Hlt : S (current_pair_index s)
                  < length (pairs (current_round_fonts s)))
      by (apply nth_error_Some; rewrite Eq; discriminate).
    split; [intros _; repeat split|].
    split; intros Hlast; lia.
  - apply nth_error_None in Eq. rewrite length_app in L. cbn [length] in L.
    split; [intro; lia|].
    split; [intros _ _; repeat split|].
    intros _ Hone. lia.
  - apply nth_error_None in Eq. rewrite length_app in L. cbn [length] in L.
    split; [intro; lia|].
    split; [intros _ Hmany; lia|].
    intros _ _. repeat split.
Qed.

Lemma cursor_equals_winner_count_witness :
  exists s0 s1 s2,
    init ["A"; "B"; "C"; "D"] = Ok s0
    /\ select Key_Left s0 = Ok s1
    /\ current_pair_index s1 = 1 /\ round_winners s1 = ["A"]
    /\ select Key_Right s1 = Ok s2
    /\ current_pair_index s2 = 0 /\ round_winners s2 = []
    /\ round_number s2 = 2 /\ current_round_fonts s2 = ["A"; "D"].
Proof.
  assert (R1 : exists s0 s1,
             init ["A"; "B"; "C"; "D"] = Ok s0
             /\ select Key_Left s0 = Ok s1
             /\ reachable ["A"; "B"; "C"; "D"] 0 s0
             /\ reachable ["A"; "B"; "C"; "D"] 1 s1).
  { do 2 eexists. split; [reflexivity|]. split; [reflexivity|].
    split; [apply reach_init; reflexivity|].
    eapply reach_pick with (k := Key_Left);
      [apply reach_init; reflexivity|reflexivity|reflexivity]. }
  destruct R1 as (s0 & s1 & E0 & E1 & R0 & R1).
  destruct (cursor_equals_winner_count _ _ _ R0) as (_ & Step0).
  destruct (cursor_equals_winner_count _ _ _ R1) as (_ & Step1).
  injection E0 as <-. injection E1 as <-.
  destruct (Step0 eq_refl Key_Left) as (p0 & t1 & P0 & T1 & Same & _).
  injection P0 as <-. injection T1 as <-.
  destruct (Step1 eq_refl Key_Right) as (p1 & t2 & P1 & T2 & _ & Next & _).
  injection P1 as <-.
  destruct (Same ltac:(cbn; lia)) as (A1 & A2 & _).
  destruct (Next eq_refl ltac:(cbn; lia)) as (B1 & B2 & B3 & B4).
  do 3 eexists.
  split; [reflexivity|]. split; [reflexivity|].
  split; [exact A1|]. split; [exact A2|].
  split; [exact T2|].
  split; [exact B1|]. split; [exact B2|].
  split; [exact B3|exact B4].
Defined.

(** ** The counter along a run *)

Lemma select_counts_grow (k : pick) (s s' : FontTesterApp) (f : font) :
  select k s = Ok s' ->
  counter_get (winner_counts s) f <= counter_get (winner_counts s') f.
Proof.
  intro E. destruct (selection_enabled s) eqn:Hsel.
  - destruct (select_outcome k s s' Hsel E) as (p & _ & O).
    rewrite (pick_outcome_counts s s' _ O). apply counter_get_incr_le.
  - rewrite select_disabled in E by exact Hsel.
    injection E as <-. lia.
Qed.

Lemma run_from_counts_grow (picks : list pick) (s s' : FontTesterApp)
    (f : font) :
  run_from s picks = Ok s' ->
  counter_get (winner_counts s) f <= counter_get (winner_counts s') f.
Proof.
  revert s. induction picks as [|k picks IH]; intros s E; cbn [run_from] in E.
  - injection E as <-. lia.
  - destruct (select k s) as [s1| |] eqn:E1; try discriminate.
    pose proof (select_counts_grow k s s1 f E1). specialize (IH s1 E). lia.
Qed.

(** Every state a run ends in is reachable, with at most as many
    recorded picks as picks were made. *)
Lemma run_from_reachable (fonts : list font) (picks : list pick) :
  forall n s s',
    reachable fonts n s -> run_from s picks = Ok s' ->
    exists m, n <= m <= n + length picks /\ reachable fonts m s'.
Proof.
  induction picks as [|k picks IH]; intros n s s' R E; cbn [run_from] in E.
  - injection E as <-. exists n. split; [simpl; lia|exact R].
  - destruct (select k s) as [s1| |] eqn:E1; try discriminate.
    destruct (selection_enabled s) eqn:Hsel.
    + destruct (IH (S n) s1 s' (reach_pick fonts n s k s1 R Hsel E1) E)
        as (m & Hm & Rm).
      exists m. split; [cbn [length]; lia|exact Rm].
    + rewrite select_disabled in E1 by exact Hsel. injection E1 as <-.
      destruct (IH n s s' R E) as (m & Hm & Rm).
      exists m. split; [cbn [length]; lia|exact Rm].
Qed.

Lemma run_reachable (fonts : list font) (picks : list pick)
    (s : FontTesterApp) :
  run fonts picks = Ok s ->
  exists m, m <= length picks /\ reachable fonts m s.
Proof.
  unfold run. destruct (init fonts) as [s0| |] eqn:E0; try discriminate.
  intro E.
  destruct (run_from_reachable fonts picks 0 s0 s (reach_init fonts s0 E0) E)
    as (m & Hm & Rm).
  exists m. split; [lia|exact Rm].
Qed.

(** C8.  In a state reached by [n] recorded picks the counts add up to
    [n]; and however the run goes on from there, no count of any font
    ever goes down (a pick that arrives after the result is shown changes
    nothing). *)
Theorem counts_add_up_to_picks
    (fonts : list font) (n : nat) (s : FontTesterApp) :
  reachable fonts n s ->
  counter_total (winner_counts s) = n
  /\ forall picks s' f,
       run_from s picks = Ok s' ->
       counter_get (winner_counts s) f <= counter_get (winner_counts s') f.
Proof.
  intro R. split.
  - induction R as [s H|n s k s' R IH Hsel E].
    + destruct (le_lt_dec 2 (length fonts)) as [L|L].
      * destruct (init_large fonts L) as (p & _ & E).
        rewrite E in H. injection H as <-. reflexivity.
      * rewrite init_small in H by exact L. discriminate.
    + destruct (select_outcome k s s' Hsel E) as (p & _ & O).
      rewrite (pick_outcome_counts s s' _ O), counter_total_incr.
      congruence.
  - intros picks s' f. apply run_from_counts_grow.
Qed.

Lemma counts_add_up_to_picks_witness :
  exists s, reachable ["A"; "B"; "C"; "D"] 2 s
            /\ counter_total (winner_counts s) = 2.
Proof.
  eexists. split.
  - reach_by ["A"; "B"; "C"; "D"] [Key_Left; Key_Right].
  - refine (proj1 (counts_add_up_to_picks ["A"; "B"; "C"; "D"] 2 _ _)).
    reach_by ["A"; "B"; "C"; "D"] [Key_Left; Key_Right].
Defined.

(** ** The progress bar *)

Lemma pairs_length_double (l : list font) : 2 * length (pairs l) <= length l.
Proof.
  rewrite pairs_length.
  pose proof (Nat.div_mod_eq (length l) 2). lia.
Qed.

Lemma zrange_in (n : nat) :
  forall start z,
    (start <= z < start + Z.of_nat n)%Z -> In z (zrange start n).
Proof.
  induction n as [|n IH]; intros start z H; [lia|].
  cbn [zrange]. destruct (Z.eq_dec start z) as [->|Hne].
  - left. reflexivity.
  - right. apply IH. lia.
Qed.

Lemma near_percent_spec (a b v : Z) :
  near_percent a b v = true ->
  (0 <= v <= 100)%Z /\ (v * b <= 100 * a < (v + 2) * b)%Z.
Proof.
  unfold near_percent. rewrite !andb_true_iff.
  intros [[[H1 H2] H3] H4].
  apply Z.leb_le in H1, H2, H3. apply Z.ltb_lt in H4. lia.
Qed.

Lemma percent_steps_spec (b : Z) (n : nat) :
  forall a v,
    percent a b = Some v ->
    percent_steps b a v n = true ->
    forall j, j < n ->
      exists v1 v2,
        percent (a + 2 * Z.of_nat j) b = Some v1
        /\ percent (a + 2 * Z.of_nat j + 2) b = Some v2
        /\ near_percent (a + 2 * Z.of_nat j + 2) b v2 = true
        /\ (v1 <= v2)%Z.
Proof.
  induction n as [|n IH]; intros a v Ha H j Hj; [lia|].
  cbn [percent_steps] in H.
  destruct (percent (a + 2) b) as [v'|] eqn:E; [|discriminate].
  rewrite !andb_true_iff in H. destruct H as [[Hnear Hle] Hrest].
  apply Z.leb_le in Hle.
  destruct j as [|j].
  - exists v, v'. replace (a + 2 * Z.of_nat 0)%Z with a by lia. auto.
  - destruct (IH (a + 2)%Z v' E Hrest j ltac:(lia))
      as (v1 & v2 & E1 & E2 & N2 & L).
    exists v1, v2.
    replace (a + 2 * Z.of_nat (S j))%Z with (a + 2 + 2 * Z.of_nat j)%Z
      by lia.
    auto.
Qed.

(** Every round length from 1 to 1000, evaluated. *)
Lemma percent_rounds_evaluated :
  forallb percent_round (zrange 1 1000) = true.
Proof. vm_compute. reflexivity. Qed.

(** What the evaluation shows of [int(a / b * 100)] for an even [a] up
    to [b], [b] up to 1000. *)
Lemma percent_checked (b i : Z) :
  (1 <= b <= 1000)%Z -> (0 <= i)%Z -> (2 * i <= b)%Z ->
  exists v,
    percent (2 * i) b = Some v
    /\ (0 <= v <= 100)%Z
    /\ (v * b <= 100 * (2 * i) < (v + 2) * b)%Z
    /\ ((2 * i + 2 <= b)%Z ->
        exists v', percent (2 * i + 2) b = Some v' /\ (v <= v')%Z).
Proof.
  intros Hb Hi Hib.
  pose proof percent_rounds_evaluated as H.
  rewrite forallb_forall in H.
  specialize (H b (zrange_in 1000 1 b ltac:(lia))).
  unfold percent_round in H.
  destruct (percent 0 b) as [v0|] eqn:E0; [|discriminate].
  rewrite andb_true_iff in H. destruct H as [N0 Steps].
  pose proof (percent_steps_spec b _ 0%Z v0 E0 Steps) as Spec.
  assert (Hhalf : forall j : nat,
             (2 * Z.of_nat j + 2 <= b)%Z -> j < Z.to_nat (b / 2)).
  { intros j Hj.
    assert (Z.of_nat j + 1 <= b / 2)%Z
      by (apply Z.div_le_lower_bound; lia).
    lia. }
  assert (Here : exists v, percent (2 * i) b = Some v
                           /\ near_percent (2 * i) b v = true).
  { destruct (Z.eq_dec i 0) as [->|Hne].
    - exists v0. auto.
    - destruct (Spec (Z.to_nat (i - 1)) (Hhalf (Z.to_nat (i - 1)) ltac:(lia)))
        as (v1 & v2 & _ & E2 & N2 & _).
      exists v2.
      replace (0 + 2 * Z.of_nat (Z.to_nat (i - 1)) + 2)%Z with (2 * i)%Z
        in E2, N2 by lia.
      auto. }
  destruct Here as (v & Ev & Nv).
  exists v. split; [exact Ev|].
  destruct (near_percent_spec _ _ _ Nv) as [R1 R2].
  split; [exact R1|]. split; [exact R2|].
  intro Hnext.
  destruct (Spec (Z.to_nat i) (Hhalf (Z.to_nat i) ltac:(lia)))
    as (v1 & v2 & E1 & E2 & _ & L).
  replace (0 + 2 * Z.of_nat (Z.to_nat i))%Z with (2 * i)%Z in E1, E2 by lia.
  exists v2. split; [exact E2|]. congruence.
Qed.

Lemma reachable_bar_reachable
    (fonts : list font) (n : nat) (s : FontTesterApp) (bar : option Z) :
  reachable_bar fonts n s bar -> reachable fonts n s.
Proof.
  induction 1 as [s E|n s bar k s' R IH Hsel E].
  - apply reach_init, E.
  - eapply reach_pick; eauto.
Qed.

(** A round is never longer than the input. *)
Lemma reachable_round_length
    (fonts : list font) (n : nat) (s : FontTesterApp) :
  reachable fonts n s ->
  length (current_round_fonts s) <= length fonts.
Proof.
  induction 1 as [s E|n s k s' R IH Hsel E].
  - destruct (Nat.lt_ge_cases (length fonts) 2) as [Hs|Hl].
    + rewrite (init_small fonts Hs) in E. discriminate.
    + destruct (init_large fonts Hl) as (p & _ & E').
      rewrite E' in E. injection E as <-. apply Nat.le_refl.
  - pose proof (reachable_shape fonts n s R) as I.
    destruct (select_outcome k s s' Hsel E) as (p & _ & O).
    destruct (pick_outcome_cursor s s' _ O)
      as [(_ & Hf & _)|(_ & Hf & _)]; rewrite Hf; [exact IH|].
    rewrite carry_over_length, length_app. cbn [length].
    pose proof (si_cursor s I) as Hc.
    pose proof (si_pending s I Hsel) as Hp.
    pose proof (pairs_length_double (current_round_fonts s)) as Hd.
    assert ((length (round_winners s) + 1) mod 2 < 2)
      by (apply Nat.mod_upper_bound; lia).
    lia.
Qed.

Lemma select_bar_eq (k : pick) (s : FontTesterApp) (bar : option Z)
    (p : font * font) :
  selection_enabled s = true ->
  nth_error (pairs (current_round_fonts s)) (current_pair_index s) = Some p ->
  select_bar k s bar
  = update_fonts_bar call_budget (record_winner s (picked k p)) bar.
Proof. intros H E. unfold select_bar. rewrite H, E. reflexivity. Qed.

(** The bar after a recorded pick: set from the state that shows the
    next pair, left alone when the result is shown. *)
Lemma bar_after_pick (s s' : FontTesterApp) (w : font) (bar : option Z) :
  selection_enabled s = true ->
  pick_outcome s w s' ->
  update_fonts_bar call_budget (record_winner s w) bar
  = if selection_enabled s'
    then match progress s' with Some v => Some v | None => bar end
    else bar.
Proof.
  intros Hsel [p E ->|p E L Ep ->|E L ->]; unfold call_budget;
    cbn [update_fonts_bar record_winner current_round_fonts
         current_pair_index round_winners];
    rewrite E.
  - cbn [show_pair record_winner selection_enabled]. rewrite Hsel.
    reflexivity.
  - apply Nat.ltb_lt in L. rewrite L.
    cbn [update_fonts_bar next_round record_winner current_round_fonts
         current_pair_index round_winners].
    rewrite Ep.
    cbn [show_pair next_round record_winner selection_enabled].
    rewrite Hsel. reflexivity.
  - apply Nat.ltb_ge in L. rewrite L. reflexivity.
Qed.

(** The value [update_fonts] computes while a pair is shown, for an
    input of at most 1000 fonts. *)
Lemma progress_checked (fonts : list font) (n : nat) (s : FontTesterApp) :
  length fonts <= 1000 ->
  reachable fonts n s ->
  selection_enabled s = true ->
  exists v,
    progress s = Some v
    /\ (0 <= v <= 100)%Z
    /\ (v * Z.of_nat (length (current_round_fonts s))
        <= 100 * Z.of_nat (current_pair_index s + length (round_winners s))
        < (v + 2) * Z.of_nat (length (current_round_fonts s)))%Z.
Proof.
  intros Hlen R Hsel.
  pose proof (reachable_shape fonts n s R) as I.
  pose proof (reachable_round_length fonts n s R) as Hr.
  pose proof (si_cursor s I) as Hc.
  pose proof (si_pending s I Hsel) as Hp.
  pose proof (si_size s I) as Hs.
  pose proof (pairs_length_double (current_round_fonts s)) as Hd.
  destruct (percent_checked (Z.of_nat (length (current_round_fonts s)))
                            (Z.of_nat (current_pair_index s))
                            ltac:(lia) ltac:(lia) ltac:(lia))
    as (v & E & R1 & R2 & _).
  exists v. unfold progress.
  replace (Z.of_nat (current_pair_index s + length (round_winners s)))
    with (2 * Z.of_nat (current_pair_index s))%Z by lia.
  auto.
Qed.

(** While a pair is shown the bar holds the value computed for it. *)
Lemma reachable_bar_shown
    (fonts : list font) (n : nat) (s : FontTesterApp) (bar : option Z) :
  length fonts <= 1000 ->
  reachable_bar fonts n s bar ->
  selection_enabled s = true ->
  bar = progress s.
Proof.
  intros Hlen R Hsel.
  destruct (progress_checked fonts n s Hlen
              (reachable_bar_reachable fonts n s bar R) Hsel)
    as (v & Ev & _).
  destruct R as [s E|n s bar k s' R Hsel0 E].
  - destruct (Nat.lt_ge_cases (length fonts) 2) as [Hs|Hl].
    + rewrite (init_small fonts Hs) in E. discriminate.
    + destruct (init_large fonts Hl) as (p & Ep & E').
      rewrite E' in E. injection E as <-.
      change (progress (show_pair (constructed fonts) p))
        with (progress (constructed fonts)) in Ev |- *.
      unfold init_bar, call_budget.
      cbn [update_fonts_bar constructed current_round_fonts
           current_pair_index].
      rewrite Ep.
      change (mkApp fonts [] 0 1 (calculate_total_rounds (length fonts)) []
                    true "" "" StatusBlank) with (constructed fonts).
      rewrite Ev. reflexivity.
  - destruct (select_outcome k s s' Hsel0 E) as (p & Ep & O).
    rewrite (select_bar_eq k s bar p Hsel0 Ep).
    rewrite (bar_after_pick s s' _ bar Hsel0 O), Hsel, Ev. reflexivity.
Qed.




(** ** Pairs of a list without repetition *)

Lemma pairs_in (l : list font) (p : font * font) :
  In p (pairs l) -> In (fst p) l /\ In (snd p) l.
Proof.
  induction l as [| a | a b l IH] using list_ind_by_two.
  - intros [].
  - intros [].
  - rewrite pairs_cons2. intros [<-|H]; simpl.
    + tauto.
    + destruct (IH H). tauto.
Qed.

Lemma pairs_nth (l : list font) (i : nat) (p : font * font) :
  nth_error (pairs l) i = Some p ->
  nth_error l (2 * i) = Some (fst p) /\ nth_error l (2 * i + 1) = Some (snd p).
Proof.
  revert i. induction l as [| a | a b l IH] using list_ind_by_two; intro i.
  - destruct i; discriminate.
  - destruct i; discriminate.
  - rewrite pairs_cons2. destruct i as [|i].
    + intro H. injection H as <-. split; reflexivity.
    + cbn [nth_error]. intro H. destruct (IH i H) as [H1 H2].
      replace (2 * S i) with (S (S (2 * i))) by lia.
      replace (S (S (2 * i)) + 1) with (S (S (2 * i + 1))) by lia.
      split; assumption.
Qed.

Lemma index_of_nth (l : list font) (i : nat) (f : font) :
  NoDup l -> nth_error l i = Some f -> index_of f l = i.
Proof.
  intro H. revert i. induction H as [|x l Hx Hl IH]; intro i.
  - destruct i; discriminate.
  - destruct i as [|i]; cbn [nth_error index_of].
    + intro E. injection E as ->. rewrite String.eqb_refl. reflexivity.
    + intro E. destruct (String.eqb_spec x f) as [->|N].
      * exfalso. apply Hx. eapply nth_error_In; eauto.
      * f_equal. apply IH, E.
Qed.

Lemma pairs_index (l : list font) (i : nat) (p : font * font) :
  NoDup l -> nth_error (pairs l) i = Some p ->
  index_of (fst p) l = 2 * i /\ index_of (snd p) l = 2 * i + 1.
Proof.
  intros H E. destruct (pairs_nth l i p E).
  split; apply index_of_nth; assumption.
Qed.

Lemma separated_skipn (ps : list (font * font)) (i : nat) :
  separated ps -> separated (skipn i ps).
Proof.
  revert ps. induction i as [|i IH]; intros [|p ps] H; simpl; auto.
  apply IH. apply H.
Qed.

Lemma separated_snoc (ps : list (font * font)) (q : font * font) :
  separated ps ->
  Forall (fun p => fst p <> fst q /\ fst p <> snd q /\
                   snd p <> fst q /\ snd p <> snd q) ps ->
  separated (ps ++ [q]).
Proof.
  induction ps as [|p ps IH]; simpl.
  - intros _ _. split; [constructor|exact I].
  - intros [Hp Hs] Hq. inversion Hq as [|? ? Hpq Hq']; subst.
    split; [|apply IH; assumption].
    apply Forall_app. split; [assumption|].
    constructor; [assumption|constructor].
Qed.

Lemma separated_pairs (l : list font) : NoDup l -> separated (pairs l).
Proof.
  induction l as [| a | a b l IH] using list_ind_by_two; intro H.
  - exact I.
  - exact I.
  - rewrite pairs_cons2. inversion H as [|? ? Ha H']; subst.
    inversion H' as [|? ? Hb Hl]; subst.
    split; [|apply IH, Hl].
    apply Forall_forall. intros q Hq. destruct (pairs_in l q Hq) as [H1 H2].
    cbn [fst snd]. repeat split; intros ->; simpl in *; tauto.
Qed.

Lemma even_mod2 (n : nat) : n mod 2 = 0 -> Nat.even n = true.
Proof.
  intro H. apply Nat.even_spec. exists (n / 2).
  pose proof (Nat.div_mod_eq n 2). lia.
Qed.

(** With an odd number of winners the next round ends in the pair made
    of the last winner and its copy. *)
Lemma carry_over_odd (ws : list font) :
  length ws mod 2 = 1 ->
  exists ws' e,
    ws = ws' ++ [e] /\ last ws "" = e /\
    carry_over ws = ws' ++ [e; e] /\
    pairs (carry_over ws) = pairs ws' ++ [(e, e)].
Proof.
  intro H. destruct (exists_last (l := ws)) as (ws' & e & ->).
  { intros ->. discriminate. }
  exists ws', e. rewrite last_last. unfold carry_over.
  rewrite H, last_last. cbn [Nat.eqb].
  rewrite <- app_assoc. cbn [app]. repeat split.
  rewrite pairs_app_even; [reflexivity|].
  apply even_mod2. rewrite length_app in H. cbn [length] in H.
  pose proof (Nat.div_mod_eq (length ws' + 1) 2).
  pose proof (Nat.div_mod_eq (length ws') 2).
  assert (length ws' mod 2 < 2) by (apply Nat.mod_upper_bound; lia).
  lia.
Qed.

Lemma carry_over_even (ws : list font) :
  length ws mod 2 <> 1 -> carry_over ws = ws.
Proof.
  intro H. unfold carry_over.
  destruct (Nat.eqb_spec (length ws mod 2) 1); [contradiction|reflexivity].
Qed.

Lemma carry_over_in (ws : list font) (f : font) :
  In f (carry_over ws) -> In f ws.
Proof.
  destruct (Nat.eq_dec (length ws mod 2) 1) as [H|H].
  - destruct (carry_over_odd ws H) as (ws' & e & -> & _ & -> & _).
    rewrite !in_app_iff. simpl. tauto.
  - rewrite carry_over_even by exact H. auto.
Qed.

Lemma separated_carry_over (ws : list font) :
  NoDup ws -> separated (pairs (carry_over ws)).
Proof.
  intro H. destruct (Nat.eq_dec (length ws mod 2) 1) as [E|E].
  - destruct (carry_over_odd ws E) as (ws' & e & -> & _ & _ & ->).
    apply NoDup_remove in H. rewrite app_nil_r in H. destruct H as [H He].
    apply separated_snoc; [apply separated_pairs, H|].
    apply Forall_forall. intros p Hp. destruct (pairs_in ws' p Hp).
    cbn [fst snd]. repeat split; intros <-; contradiction.
  - rewrite carry_over_even by exact E. apply separated_pairs, H.
Qed.

(** ** Counts and key order when no font occurs twice in the input *)

Lemma skipn_nth_error (A : Type) (l : list A) (i : nat) (x : A) :
  nth_error l i = Some x -> skipn i l = x :: skipn (S i) l.
Proof.
  revert l. induction i as [|i IH]; intros [|y l]; try discriminate.
  - intro H. injection H as ->. reflexivity.
  - cbn [nth_error]. intro H. apply (IH l H).
Qed.

Lemma StronglySorted_snoc (A : Type) (R : A -> A -> Prop)
    (l : list A) (a : A) :
  StronglySorted R l -> Forall (fun x => R x a) l ->
  StronglySorted R (l ++ [a]).
Proof.
  induction 1 as [|x l Hl IH Hx]; intro Ha; cbn [app].
  - repeat constructor.
  - inversion Ha as [|? ? Hxa Hla]; subst. constructor.
    + apply IH, Hla.
    + apply Forall_app. split; [exact Hx|]. repeat constructor. exact Hxa.
Qed.

Lemma tally_init (fonts : list font) (p : font * font) :
  NoDup fonts -> tally_inv fonts (show_pair (constructed fonts) p).
Proof.
  intro H. constructor;
    cbn [show_pair constructed current_pair_index round_winners
         current_round_fonts round_number winner_counts counter_keys map
         counter_get skipn].
  - intros f [].
  - intros f _. lia.
  - intros q _. split; reflexivity.
  - apply separated_pairs, H.
  - constructor.
  - intros _. split; [reflexivity|constructor].
  - constructor.
  - constructor.
Qed.

(** The invariant only looks at five fields. *)
Lemma tally_same_fields (fonts : list font) (s s' : FontTesterApp) :
  tally_inv fonts s ->
  current_round_fonts s' = current_round_fonts s ->
  round_winners s' = round_winners s ->
  current_pair_index s' = current_pair_index s ->
  round_number s' = round_number s ->
  winner_counts s' = winner_counts s ->
  tally_inv fonts s'.
Proof.
  intros [] Hf Hw Hi Hr Hc.
  constructor; rewrite ?Hf, ?Hw, ?Hi, ?Hr, ?Hc; assumption.
Qed.

(** The three assignments of a pick keep the invariant. *)
Lemma tally_record (fonts : list font) (s : FontTesterApp)
    (p : font * font) (w : font) :
  NoDup fonts ->
  tally_inv fonts s ->
  nth_error (pairs (current_round_fonts s)) (current_pair_index s) = Some p ->
  w = fst p \/ w = snd p ->
  tally_inv fonts (record_winner s w).
Proof.
  intros Hnd T Ep Hw.
  pose proof (skipn_nth_error _ _ _ _ Ep) as Hskip.
  assert (Hcw : S (counter_get (winner_counts s) w) = round_number s).
  { destruct (ti_waiting fonts s T p) as [H1 H2].
    - rewrite Hskip. left. reflexivity.
    - destruct Hw as [->| ->]; assumption. }
  assert (Hnw : ~ In w (round_winners s)).
  { intro H. apply (ti_won fonts s T) in H. lia. }
  assert (Hrest : Forall (fun q => w <> fst q /\ w <> snd q)
                         (skipn (S (current_pair_index s))
                                (pairs (current_round_fonts s)))).
  { pose proof (separated_skipn _ (current_pair_index s)
                  (ti_separated fonts s T)) as Hs.
    rewrite Hskip in Hs. destruct Hs as [Hs _].
    eapply Forall_impl; [|exact Hs]. cbn beta.
    intros q (H1 & H2 & H3 & H4). destruct Hw as [->| ->]; split; assumption. }
  assert (Hfirst : round_number s = 1 ->
                   2 * current_pair_index s <= index_of w fonts
                   /\ index_of w fonts < 2 * S (current_pair_index s)).
  { intro Hr. destruct (ti_first fonts s T Hr) as [Hf _].
    rewrite Hf in Ep. destruct (pairs_index fonts _ p Hnd Ep) as [H1 H2].
    destruct Hw as [->| ->]; lia. }
  constructor;
    cbn [record_winner current_pair_index round_winners
         current_round_fonts round_number winner_counts].
  - intros f Hf. apply in_app_or in Hf. destruct Hf as [Hf|[<-|[]]].
    + rewrite counter_get_incr_other.
      * apply (ti_won fonts s T), Hf.
      * intros ->. contradiction.
    + rewrite counter_get_incr_same. exact Hcw.
  - intros f Hf. rewrite counter_get_incr_other.
    + apply (ti_lost fonts s T). intro H. apply Hf, in_or_app. tauto.
    + intros ->. apply Hf, in_or_app. simpl. tauto.
  - intros q Hq. rewrite Forall_forall in Hrest.
    destruct (Hrest q Hq) as [H1 H2].
    rewrite !counter_get_incr_other by congruence.
    apply (ti_waiting fonts s T). rewrite Hskip. right. exact Hq.
  - apply (ti_separated fonts s T).
  - destruct (in_dec string_dec w (counter_keys (winner_counts s))) as [Hk|Hk].
    + rewrite counter_keys_incr_old by exact Hk. apply (ti_order fonts s T).
    + rewrite counter_keys_incr_new by exact Hk.
      assert (Hr : round_number s = 1).
      { rewrite (counter_key_iff_positive _ w (ti_positive fonts s T)) in Hk.
        lia. }
      apply StronglySorted_snoc; [apply (ti_order fonts s T)|].
      destruct (ti_first fonts s T Hr) as [_ Hlt].
      destruct (Hfirst Hr) as [Hlo _].
      eapply Forall_impl; [|exact Hlt]. cbn beta. unfold earlier.
      intros f Hf. lia.
  - intro Hr. destruct (ti_first fonts s T Hr) as [Hf Hlt].
    destruct (Hfirst Hr) as [_ Hhi].
    split; [exact Hf|].
    assert (Hold : Forall (fun f => index_of f fonts
                                    < 2 * S (current_pair_index s))
                          (counter_keys (winner_counts s))).
    { eapply Forall_impl; [|exact Hlt]. cbn beta. intros f Hf'. lia. }
    destruct (in_dec string_dec w (counter_keys (winner_counts s))) as [Hk|Hk].
    + rewrite counter_keys_incr_old by exact Hk. exact Hold.
    + rewrite counter_keys_incr_new by exact Hk.
      apply Forall_app. split; [exact Hold|].
      constructor; [exact Hhi|constructor].
  - apply counter_incr_positive, (ti_positive fonts s T).
  - apply NoDup_app; [apply (ti_nodup fonts s T)| repeat constructor; simpl; tauto |].
    intros x Hx [<-|[]]. contradiction.
Qed.

(** The assignments of [start_next_round] keep the invariant. *)
Lemma tally_next_round (fonts : list font) (s : FontTesterApp) :
  tally_inv fonts s -> 1 <= round_number s ->
  tally_inv fonts (next_round s).
Proof.
  intros T Hr. constructor;
    cbn [next_round current_pair_index round_winners
         current_round_fonts round_number winner_counts skipn].
  - intros f [].
  - intros f _.
    destruct (in_dec string_dec f (round_winners s)) as [H|H].
    + rewrite (ti_won fonts s T f H). lia.
    + pose proof (ti_lost fonts s T f H). lia.
  - intros q Hq. destruct (pairs_in _ q Hq) as [H1 H2].
    apply carry_over_in in H1, H2.
    rewrite (ti_won fonts s T _ H1), (ti_won fonts s T _ H2). tauto.
  - apply separated_carry_over, (ti_nodup fonts s T).
  - apply (ti_order fonts s T).
  - intro H. lia.
  - apply (ti_positive fonts s T).
  - constructor.
Qed.

Lemma tally_pick (fonts : list font) (s s' : FontTesterApp)
    (p : font * font) (w : font) :
  NoDup fonts ->
  tally_inv fonts s -> 1 <= round_number s ->
  nth_error (pairs (current_round_fonts s)) (current_pair_index s) = Some p ->
  w = fst p \/ w = snd p ->
  pick_outcome s w s' ->
  tally_inv fonts s'.
Proof.
  intros Hnd T Hr Ep Hw O.
  pose proof (tally_record fonts s p w Hnd T Ep Hw) as T1.
  destruct O as [q E ->|q E L Eq ->|E L ->].
  - eapply tally_same_fields; [exact T1|reflexivity..].
  - eapply tally_same_fields;
      [apply (tally_next_round fonts _ T1); exact Hr|reflexivity..].
  - eapply tally_same_fields; [exact T1|reflexivity..].
Qed.

Lemma picked_side (k : pick) (p : font * font) :
  picked k p = fst p \/ picked k p = snd p.
Proof. destruct k; simpl; auto. Qed.

Lemma reachable_tally (fonts : list font) (n : nat) (s : FontTesterApp) :
  NoDup fonts -> reachable fonts n s -> tally_inv fonts s.
Proof.
  intros Hnd R. induction R as [s H|n s k s' R IH Hsel E].
  - destruct (le_lt_dec 2 (length fonts)) as [L|L].
    + destruct (init_large fonts L) as (p & _ & E).
      rewrite E in H. injection H as <-. apply tally_init, Hnd.
    + rewrite init_small in H by exact L. discriminate.
  - destruct (select_outcome k s s' Hsel E) as (p & Ep & O).
    eapply tally_pick; eauto using picked_side.
    apply (si_round s). eapply reachable_shape; eauto.
Qed.

(** ** The sort of the summary *)

Lemma insert_desc_perm (x : font * nat) (l : list (font * nat)) :
  Permutation (insert_desc x l) (x :: l).
Proof.
  induction l as [|y l IH]; cbn [insert_desc].
  - reflexivity.
  - destruct (snd y <=? snd x); [reflexivity|].
    rewrite IH. apply perm_swap.
Qed.

Lemma sorted_desc_perm (l : list (font * nat)) :
  Permutation (sorted_desc l) l.
Proof.
  induction l as [|x l IH]; cbn [sorted_desc fold_right].
  - reflexivity.
  - fold (sorted_desc l). rewrite insert_desc_perm, IH. reflexivity.
Qed.

(** Inserting an entry that comes earlier in the input than every entry
    already sorted keeps the ranking order: it lands before the entries
    with the same count. *)
Lemma insert_desc_sorted (fonts : list font) (x : font * nat)
    (l : list (font * nat)) :
  StronglySorted (ranks_before fonts) l ->
  Forall (fun y => earlier fonts (fst x) (fst y)) l ->
  StronglySorted (ranks_before fonts) (insert_desc x l).
Proof.
  induction 1 as [|y l Hl IH Hy]; intro Hx; cbn [insert_desc].
  - repeat constructor.
  - inversion Hx as [|? ? Hxy Hxl]; subst.
    destruct (Nat.leb_spec (snd y) (snd x)) as [L|L].
    + constructor; [constructor; assumption|].
      constructor.
      * unfold ranks_before. destruct (Nat.eq_dec (snd x) (snd y)); [right|left];
          [split; assumption|lia].
      * rewrite Forall_forall in Hy, Hxl |- *. intros z Hz.
        specialize (Hy z Hz). specialize (Hxl z Hz).
        unfold ranks_before in Hy |- *.
        destruct (Nat.eq_dec (snd x) (snd z)); [right|left];
          [split; assumption|lia].
    + constructor; [apply IH, Hxl|].
      eapply Permutation_Forall.
      * symmetry. apply insert_desc_perm.
      * constructor; [|exact Hy]. left. exact L.
Qed.

Lemma sorted_desc_sorted (fonts : list font) (l : list (font * nat)) :
  StronglySorted (earlier fonts) (map fst l) ->
  StronglySorted (ranks_before fonts) (sorted_desc l).
Proof.
  induction l as [|x l IH]; cbn [map sorted_desc fold_right]; intro H.
  - constructor.
  - fold (sorted_desc l). inversion H as [|? ? Hl Hx]; subst.
    apply insert_desc_sorted; [apply IH, Hl|].
    eapply Permutation_Forall; [symmetry; apply sorted_desc_perm|].
    rewrite Forall_map in Hx. exact Hx.
Qed.

(** ** The final result *)

Lemma finished_winner (fonts : list font) (n : nat) (s : FontTesterApp) :
  reachable fonts n s -> is_finished s = true ->
  exists w, round_winners s = [w] /\ final_winner s = Some w.
Proof.
  intros R F. pose proof (reachable_shape fonts n s R) as I.
  assert (Hsel : selection_enabled s = false).
  { unfold is_finished in F. destruct (selection_enabled s);
      [discriminate|reflexivity]. }
  destruct (si_stopped s I Hsel) as [H1 _].
  unfold final_winner.
  destruct (round_winners s) as [|w [|? ?]]; try discriminate.
  exists w. split; reflexivity.
Qed.

(** C4.  On an input without repeated fonts, once the result is shown:
    [round_winners] holds exactly one font, the winner read by
    [display_result]; it has won one comparison in each round played;
    the lines of the summary are the entries of [winner_counts], each
    once, ordered by count from high to low and, among equal counts, by
    position in the input; and the status label shows the first six of
    them. *)
Theorem final_result_winner_and_ranking
    (fonts : list font) (n : nat) (s : FontTesterApp) :
  NoDup fonts -> reachable fonts n s -> is_finished s = true ->
  exists w,
    round_winners s = [w] /\ final_winner s = Some w
    /\ counter_get (winner_counts s) w = round_number s
    /\ Permutation (result_lines s) (winner_counts s)
    /\ StronglySorted (ranks_before fonts) (result_lines s)
    /\ status_label s = StatusResult (firstn 6 (result_lines s)).
Proof.
  intros Hnd R F.
  destruct (finished_winner fonts n s R F) as (w & Hw & Hfw).
  pose proof (reachable_tally fonts n s Hnd R) as T.
  pose proof (reachable_shape fonts n s R) as I.
  exists w. repeat split; try assumption.
  - apply (ti_won fonts s T). rewrite Hw. left. reflexivity.
  - apply sorted_desc_perm.
  - apply sorted_desc_sorted, (ti_order fonts s T).
  - apply (si_status s I). unfold is_finished in F.
    destruct (selection_enabled s); [discriminate|reflexivity].
Qed.

(** C10.  On an input without repeated fonts, once the result is shown
    the winner's count is strictly larger than the count of any other
    font, and the first line of the summary is the winner with its
    count. *)
Theorem winner_has_most_wins
    (fonts : list font) (n : nat) (s : FontTesterApp) :
  NoDup fonts -> reachable fonts n s -> is_finished s = true ->
  exists w,
    final_winner s = Some w
    /\ (forall f, f <> w ->
          counter_get (winner_counts s) f < counter_get (winner_counts s) w)
    /\ hd_error (result_lines s) = Some (w, counter_get (winner_counts s) w).
Proof.
  intros Hnd R F.
  destruct (finished_winner fonts n s R F) as (w & Hw & Hfw).
  pose proof (reachable_tally fonts n s Hnd R) as T.
  pose proof (reachable_shape fonts n s R) as I.
  assert (Hcw : counter_get (winner_counts s) w = round_number s).
  { apply (ti_won fonts s T). rewrite Hw. left. reflexivity. }
  assert (Hmax : forall f, f <> w ->
            counter_get (winner_counts s) f < counter_get (winner_counts s) w).
  { intros f Hf. rewrite Hcw. apply (ti_lost fonts s T).
    rewrite Hw. intros [->|[]]. congruence. }
  exists w. split; [exact Hfw|]. split; [exact Hmax|].
  pose proof (sorted_desc_perm (winner_counts s)) as P.
  pose proof (sorted_desc_sorted fonts (winner_counts s) (ti_order fonts s T))
    as Hs.
  fold (result_lines s) in P, Hs.
  assert (Hin : In (w, counter_get (winner_counts s) w) (result_lines s)).
  { eapply Permutation_in; [symmetry; exact P|].
    assert (Hk : In w (counter_keys (winner_counts s))).
    { apply (counter_key_iff_positive _ w (ti_positive fonts s T)).
      pose proof (si_round s I). lia. }
    unfold counter_keys in Hk. apply in_map_iff in Hk.
    destruct Hk as ([g m] & <- & Hg). cbn [fst].
    rewrite (counter_get_entry _ g m (si_keys s I) Hg). exact Hg. }
  destruct (result_lines s) as [|[f c] l] eqn:El; [destruct Hin|].
  cbn [hd_error]. destruct Hin as [Hin|Hin]; [rewrite Hin; reflexivity|].
  exfalso.
  assert (Hfc : counter_get (winner_counts s) f = c).
  { apply counter_get_entry; [apply (si_keys s I)|].
    eapply Permutation_in; [exact P|]. left. reflexivity. }
  inversion Hs as [|? ? _ Hhd]; subst.
  rewrite Forall_forall in Hhd. specialize (Hhd _ Hin).
  unfold ranks_before in Hhd. cbn [fst snd] in Hhd.
  destruct (string_dec f w) as [->|Hne].
  - unfold earlier in Hhd. lia.
  - specialize (Hmax f Hne). lia.
Qed.

(** ** Concrete runs *)

Lemma final_result_winner_and_ranking_witness :
  NoDup ["A"; "B"; "C"; "D"]
  /\ exists s,
       reachable ["A"; "B"; "C"; "D"] 3 s /\ is_finished s = true
       /\ exists w,
            round_winners s = [w] /\ final_winner s = Some w
            /\ counter_get (winner_counts s) w = round_number s
            /\ Permutation (result_lines s) (winner_counts s)
            /\ StronglySorted (ranks_before ["A"; "B"; "C"; "D"])
                              (result_lines s)
            /\ status_label s = StatusResult (firstn 6 (result_lines s)).
Proof.
  split; [distinct_fonts|].
  eexists.
  split; [reach_by ["A"; "B"; "C"; "D"] [Key_Left; Key_Right; Key_Left]|].
  split; [reflexivity|].
  apply (final_result_winner_and_ranking ["A"; "B"; "C"; "D"] 3).
  - distinct_fonts.
  - reach_by ["A"; "B"; "C"; "D"] [Key_Left; Key_Right; Key_Left].
  - reflexivity.
Defined.

Lemma winner_has_most_wins_witness :
  NoDup ["A"; "B"; "C"; "D"]
  /\ exists s,
       reachable ["A"; "B"; "C"; "D"] 3 s /\ is_finished s = true
       /\ exists w,
            final_winner s = Some w
            /\ (forall f, f <> w ->
                  counter_get (winner_counts s) f
                  < counter_get (winner_counts s) w)
            /\ hd_error (result_lines s)
               = Some (w, counter_get (winner_counts s) w).
Proof.
  split; [distinct_fonts|].
  eexists.
  split; [reach_by ["A"; "B"; "C"; "D"] [Key_Left; Key_Right; Key_Right]|].
  split; [reflexivity|].
  apply (winner_has_most_wins ["A"; "B"; "C"; "D"] 3).
  - distinct_fonts.
  - reach_by ["A"; "B"; "C"; "D"] [Key_Left; Key_Right; Key_Right].
  - reflexivity.
Defined.

(** ** Odd numbers of fonts and of winners *)

(** C1, as the specification states it, fails.  With six fonts the three
    winners of round 1 become a round of four, and after 5 = 6 - 1 picks
    the result is not shown yet: the sixth pick ends the tournament. *)
Lemma six_fonts_need_six_picks :
  exists s s',
    reachable ["A"; "B"; "C"; "D"; "E"; "F"] 5 s
    /\ is_finished s = false
    /\ select Key_Left s = Ok s'
    /\ is_finished s' = true.
Proof.
  eexists. eexists.
  split; [reach_by ["A"; "B"; "C"; "D"; "E"; "F"]
                   [Key_Left; Key_Left; Key_Left; Key_Left; Key_Left]|].
  repeat split.
Qed.

(** C2, on the code.  On ["A"; "B"; "C"] the only pair is ("A", "B");
    after picking "A" the result is shown with "A" as the winner.  There
    is no round with the fonts ["A"; "C"]: the round is still round 1,
    of the 2 rounds [calculate_total_rounds] announced, with the three
    fonts, and "C" has been on no panel and has no count. *)
Theorem unpaired_font_is_dropped :
  pairs ["A"; "B"; "C"] = [("A", "B")]
  /\ exists s,
       select Key_Left
         (show_pair (constructed ["A"; "B"; "C"]) ("A", "B")) = Ok s
       /\ reachable ["A"; "B"; "C"] 1 s
       /\ is_finished s = true
       /\ final_winner s = Some "A"
       /\ round_number s = 1 /\ total_rounds s = 2
       /\ current_round_fonts s = ["A"; "B"; "C"]
       /\ current_round_fonts s <> ["A"; "C"]
       /\ counter_get (winner_counts s) "C" = 0.
Proof.
  split; [reflexivity|].
  eexists. split; [reflexivity|].
  split; [reach_by ["A"; "B"; "C"] [Key_Left]|].
  repeat split. discriminate.
Qed.

(** C3, as the specification states it, fails.  On six fonts, after
    "A", "C", "E" win round 1 and "A" wins the first pair of round 2, the
    pair on the panels is ("E", "E"); the pick on it raises the count of
    "E" from 1 to 2, although "E" has won one comparison against another
    font. *)
Lemma self_pair_on_six_fonts :
  exists s s',
    reachable ["A"; "B"; "C"; "D"; "E"; "F"] 4 s
    /\ get_current_pair s = Some ("E", "E")
    /\ left_font_label s = "E" /\ right_font_label s = "E"
    /\ counter_get (winner_counts s) "E" = 1
    /\ select Key_Left s = Ok s'
    /\ counter_get (winner_counts s') "E" = 2.
Proof.
  eexists. eexists.
  split; [reach_by ["A"; "B"; "C"; "D"; "E"; "F"]
                   [Key_Left; Key_Left; Key_Left; Key_Left]|].
  repeat split.
Qed.

(** C3, as the code has it.  An odd number (more than one) of winners is
    extended by a copy of its last entry, so the next round ends in a
    pair made of that font twice.  When the cursor reaches a pair of two
    equal entries it is on both panels like any other pair, and a pick
    of either side is recorded: the font is taken as the winner of the
    pair and its count goes up by one. *)
Theorem self_pair_is_presented_and_counted :
  (forall ws,
     1 < length ws -> length ws mod 2 = 1 ->
     exists ps, pairs (carry_over ws) = ps ++ [(last ws "", last ws "")])
  /\ (forall fonts n s e,
        reachable fonts n s ->
        get_current_pair s = Some (e, e) ->
        left_font_label s = e /\ right_font_label s = e
        /\ forall k,
             exists s',
               select k s = Ok s'
               /\ counter_get (winner_counts s') e
                  = S (counter_get (winner_counts s) e)
               /\ (round_winners s' = round_winners s ++ [e]
                   \/ current_round_fonts s'
                      = carry_over (round_winners s ++ [e]))).
Proof.
  split.
  - intros ws _ H.
    destruct (carry_over_odd ws H) as (ws' & e & _ & -> & _ & ->).
    eauto.
  - intros fonts n s e R G.
    pose proof (reachable_shape fonts n s R) as I.
    unfold get_current_pair in G.
    assert (Hsel : selection_enabled s = true).
    { destruct (selection_enabled s) eqn:Hsel; [reflexivity|].
      destruct (si_stopped s I Hsel) as [_ Hi].
      assert (nth_error (pairs (current_round_fonts s))
                        (current_pair_index s) = None)
        by (apply nth_error_None; lia).
      congruence. }
    pose proof (si_panels s I Hsel) as Hp. rewrite G in Hp.
    injection Hp as Hl Hr. repeat split; auto.
    intro k. destruct (select_pending k s (e, e) Hsel G) as (s' & E & O).
    assert (Hk : picked k (e, e) = e) by (destruct k; reflexivity).
    rewrite Hk in O. exists s'. split; [exact E|]. split.
    + rewrite (pick_outcome_counts s s' e O). apply counter_get_incr_same.
    + destruct (pick_outcome_cursor s s' e O) as [(_ & _ & _ & H)|(_ & H & _)];
        auto.
Qed.

Lemma self_pair_is_presented_and_counted_witness :
  (exists ps, pairs (carry_over ["A"; "C"; "E"])
              = ps ++ [(last ["A"; "C"; "E"] "", last ["A"; "C"; "E"] "")])
  /\ exists s,
       reachable ["A"; "B"; "C"; "D"; "E"; "F"] 4 s
       /\ get_current_pair s = Some ("E", "E")
       /\ left_font_label s = "E" /\ right_font_label s = "E"
       /\ forall k,
            exists s',
              select k s = Ok s'
              /\ counter_get (winner_counts s') "E"
                 = S (counter_get (winner_counts s) "E")
              /\ (round_winners s' = round_winners s ++ ["E"]
                  \/ current_round_fonts s'
                     = carry_over (round_winners s ++ ["E"])).
Proof.
  split.
  - apply (proj1 self_pair_is_presented_and_counted); [simpl; lia|reflexivity].
  - eexists.
    split; [reach_by ["A"; "B"; "C"; "D"; "E"; "F"]
                     [Key_Left; Key_Left; Key_Left; Key_Left]|].
    split; [reflexivity|].
    apply (proj2 self_pair_is_presented_and_counted
             ["A"; "B"; "C"; "D"; "E"; "F"] 4).
    + reach_by ["A"; "B"; "C"; "D"; "E"; "F"]
               [Key_Left; Key_Left; Key_Left; Key_Left].
    + reflexivity.
Defined.

(** ** How many picks a tournament takes *)

Lemma picks_needed_rounds (n : nat) :
  picks_needed n = n / 2 + later_rounds (n / 2).
Proof.
  unfold later_rounds. funelim (picks_needed n).
  - destruct (Nat.leb_spec (n / 2) 1); lia.
  - destruct (Nat.leb_spec (n / 2) 1); [lia|reflexivity].
Qed.

Lemma picks_left_pick (s s' : FontTesterApp) (w : font) :
  shape_inv s -> selection_enabled s = true ->
  pick_outcome s w s' ->
  picks_left s = S (picks_left s').
Proof.
  intros I Hsel O.
  pose proof (si_pending s I Hsel) as Hp.
  pose proof (si_cursor s I) as Hc.
  unfold picks_left at 1. rewrite Hsel.
  destruct O as [p E ->|p E L Ep ->|E L ->]; unfold picks_left;
    cbn [show_pair record_winner next_round result_shown
         current_pair_index round_winners selection_enabled
         current_round_fonts].
  - rewrite Hsel.
    assert (S (current_pair_index s) < length (pairs (current_round_fonts s)))
      by (apply nth_error_Some; congruence).
    lia.
  - rewrite Hsel. apply nth_error_None in E.
    rewrite length_app in L. cbn [length] in L.
    set (m := length (pairs (current_round_fonts s))) in *.
    assert (Hm : m = S (current_pair_index s)) by lia.
    rewrite pairs_length, carry_over_length, length_app. cbn [length].
    replace (length (round_winners s) + 1) with m by lia.
    rewrite Nat.sub_0_r, <- picks_needed_rounds.
    unfold later_rounds. destruct (Nat.leb_spec m 1); lia.
  - apply nth_error_None in E.
    rewrite length_app in L. cbn [length] in L.
    unfold later_rounds.
    destruct (Nat.leb_spec (length (pairs (current_round_fonts s))) 1); lia.
Qed.

(** Along every run the picks made and the picks still to come add up
    to [picks_needed] of the number of fonts. *)
Lemma picks_made_and_left (fonts : list font) (n : nat) (s : FontTesterApp) :
  reachable fonts n s -> n + picks_left s = picks_needed (length fonts).
Proof.
  induction 1 as [s H|n s k s' R IH Hsel E].
  - destruct (le_lt_dec 2 (length fonts)) as [L|L].
    + destruct (init_large fonts L) as (p & _ & E).
      rewrite E in H. injection H as <-.
      unfold picks_left. cbn [show_pair constructed selection_enabled
        current_round_fonts current_pair_index].
      rewrite picks_needed_rounds, pairs_length. lia.
    + rewrite init_small in H by exact L. discriminate.
  - destruct (select_outcome k s s' Hsel E) as (p & _ & O).
    pose proof (reachable_shape fonts n s R) as I.
    rewrite (picks_left_pick s s' _ I Hsel O) in IH. lia.
Qed.

(** The result is shown after exactly [picks_needed] picks: not before,
    and every pick before that is accepted. *)
Lemma result_after_picks_needed
    (fonts : list font) (n : nat) (s : FontTesterApp) :
  reachable fonts n s ->
  (is_finished s = true <-> n = picks_needed (length fonts))
  /\ (is_finished s = false ->
      n < picks_needed (length fonts)
      /\ forall k, exists s', select k s = Ok s'
                              /\ reachable fonts (S n) s').
Proof.
  intro R. pose proof (picks_made_and_left fonts n s R) as H.
  pose proof (reachable_shape fonts n s R) as I.
  unfold picks_left, is_finished in *.
  destruct (selection_enabled s) eqn:Hsel; cbn [negb].
  - pose proof (si_pending s I Hsel) as Hp. split.
    + split; [discriminate|lia].
    + intros _. split; [lia|]. intro k.
      destruct (nth_error (pairs (current_round_fonts s))
                          (current_pair_index s)) as [p|] eqn:Ep.
      * destruct (select_pending k s p Hsel Ep) as (s' & E & _).
        exists s'. split; [exact E|]. eapply reach_pick; eauto.
      * apply nth_error_None in Ep. lia.
  - split; [split; [lia|reflexivity]|discriminate].
Qed.

Lemma picks_needed_power_of_two (j : nat) :
  picks_needed (2 ^ S j) = 2 ^ S j - 1.
Proof.
  induction j as [|j IH].
  - reflexivity.
  - rewrite picks_needed_rounds.
    assert (Hhalf : 2 ^ S (S j) / 2 = 2 ^ S j).
    { rewrite (Nat.pow_succ_r' 2 (S j)), Nat.mul_comm. apply Nat.div_mul. lia. }
    rewrite Hhalf. unfold later_rounds.
    assert (Hbig : 2 <= 2 ^ S j).
    { rewrite Nat.pow_succ_r'. pose proof (Nat.pow_nonzero 2 j). lia. }
    assert (Heven : 2 ^ S j mod 2 = 0).
    { rewrite Nat.pow_succ_r', Nat.mul_comm. apply Nat.Div0.mod_mul. }
    destruct (Nat.leb_spec (2 ^ S j) 1); [lia|].
    rewrite Heven, Nat.add_0_r, IH.
    rewrite (Nat.pow_succ_r' 2 (S j)). lia.
Qed.

(** C1, as the code has it, for inputs of even length (on an input of
    odd length the last font is left out of round 1, see C2).  The
    result is shown after exactly [picks_needed] picks and not before,
    and until then every pick is accepted.  [picks_needed N] counts
    [N / 2] picks for the round and, while more than one winner is left,
    the picks of a round with the winners, whose number is raised by one
    when it is odd.  On a power of two this is [N - 1]. *)
Theorem picks_until_result_even_input
    (fonts : list font) (n : nat) (s : FontTesterApp) :
  length fonts mod 2 = 0 ->
  reachable fonts n s ->
  (is_finished s = true <-> n = picks_needed (length fonts))
  /\ (is_finished s = false ->
      n < picks_needed (length fonts)
      /\ forall k, exists s', select k s = Ok s'
                              /\ reachable fonts (S n) s')
  /\ (forall j, length fonts = 2 ^ S j ->
                picks_needed (length fonts) = length fonts - 1).
Proof.
  intros _ R.
  destruct (result_after_picks_needed fonts n s R) as [H1 H2].
  split; [exact H1|]. split; [exact H2|].
  intros j ->. apply picks_needed_power_of_two.
Qed.

Lemma picks_until_result_even_input_witness :
  exists s,
    reachable ["A"; "B"; "C"; "D"; "E"; "F"] 6 s
    /\ (is_finished s = true
        <-> 6 = picks_needed (length ["A"; "B"; "C"; "D"; "E"; "F"])).
Proof.
  eexists. split.
  - reach_by ["A"; "B"; "C"; "D"; "E"; "F"]
             [Key_Left; Key_Left; Key_Left; Key_Left; Key_Left; Key_Left].
  - refine (proj1 (picks_until_result_even_input
                     ["A"; "B"; "C"; "D"; "E"; "F"] 6 _ _ _)).
    + reflexivity.
    + reach_by ["A"; "B"; "C"; "D"; "E"; "F"]
               [Key_Left; Key_Left; Key_Left; Key_Left; Key_Left; Key_Left].
Defined.

Example picks_needed_values :
  map picks_needed [2; 3; 4; 5; 6; 7; 8] = [1; 1; 3; 3; 6; 6; 7].
Proof. reflexivity. Qed.

(** ** The unpaired font of an odd input *)

Lemma last_font_index (fonts : list font) :
  NoDup fonts -> fonts <> [] ->
  index_of (last fonts "") fonts = length fonts - 1.
Proof.
  intros Hnd Hne. destruct (exists_last Hne) as (l & e & ->).
  rewrite last_last. apply index_of_nth; [exact Hnd|].
  rewrite length_app. cbn [length].
  replace (length l + 1 - 1) with (length l) by lia.
  rewrite nth_error_app2, Nat.sub_diag by lia. reflexivity.
Qed.

(** [zip] leaves the last font of an odd input out of every pair. *)
Lemma last_font_unpaired (fonts : list font) (p : font * font) :
  NoDup fonts -> length fonts mod 2 = 1 ->
  In p (pairs fonts) ->
  fst p <> last fonts "" /\ snd p <> last fonts "".
Proof.
  intros Hnd Hodd Hp.
  assert (Hne : fonts <> []) by (intros ->; discriminate).
  pose proof (last_font_index fonts Hnd Hne) as Hl.
  destruct (In_nth_error _ _ Hp) as [i Hi].
  assert (Hlt : i < length (pairs fonts)) by (apply nth_error_Some; congruence).
  rewrite pairs_length in Hlt.
  destruct (pairs_index fonts i p Hnd Hi) as [H1 H2].
  pose proof (Nat.div_mod_eq (length fonts) 2).
  split; intro E; rewrite E in *; lia.
Qed.

Lemma unpaired_not_in_round (fonts : list font) (s : FontTesterApp)
    (p : font * font) :
  NoDup fonts -> length fonts mod 2 = 1 ->
  tally_inv fonts s -> 1 <= round_number s ->
  (1 < round_number s -> ~ In (last fonts "") (current_round_fonts s)) ->
  In p (pairs (current_round_fonts s)) ->
  fst p <> last fonts "" /\ snd p <> last fonts "".
Proof.
  intros Hnd Hodd T Hr Hlater Hp.
  destruct (Nat.eq_dec (round_number s) 1) as [E|E].
  - destruct (ti_first fonts s T E) as [Hf _]. rewrite Hf in Hp.
    apply last_font_unpaired; assumption.
  - destruct (pairs_in _ p Hp) as [H1 H2].
    assert (Hno : ~ In (last fonts "") (current_round_fonts s))
      by (apply Hlater; lia).
    split; intro E'; rewrite E' in *; contradiction.
Qed.

(** X17.  On an input of odd length without repeated fonts, the last
    font is never compared and never promoted: it is never in the pair
    under the cursor, it is never a winner, its count stays 0, and it is
    in no round after the first. *)
Lemma odd_input_last_font_dropped
    (fonts : list font) (n : nat) (s : FontTesterApp) :
  NoDup fonts -> length fonts mod 2 = 1 ->
  reachable fonts n s ->
  counter_get (winner_counts s) (last fonts "") = 0
  /\ ~ In (last fonts "") (round_winners s)
  /\ (1 < round_number s -> ~ In (last fonts "") (current_round_fonts s))
  /\ (forall p, get_current_pair s = Some p ->
                fst p <> last fonts "" /\ snd p <> last fonts "").
Proof.
  intros Hnd Hodd R.
  assert (H3 : counter_get (winner_counts s) (last fonts "") = 0
               /\ ~ In (last fonts "") (round_winners s)
               /\ (1 < round_number s ->
                   ~ In (last fonts "") (current_round_fonts s))).
  { induction R as [s H|n s k s' R IH Hsel E].
    - destruct (le_lt_dec 2 (length fonts)) as [L|L].
      + destruct (init_large fonts L) as (p & _ & E).
        rewrite E in H. injection H as <-.
        cbn [show_pair constructed winner_counts round_winners round_number
             current_round_fonts counter_get].
        repeat split; [intros []|lia].
      + rewrite init_small in H by exact L. discriminate.
    - destruct IH as (Hc & Hw & Hl).
      pose proof (reachable_tally fonts n s Hnd R) as T.
      pose proof (si_round s (reachable_shape fonts n s R)) as Hr.
      destruct (select_outcome k s s' Hsel E) as (p & Ep & O).
      assert (Hne : picked k p <> last fonts "").
      { destruct (unpaired_not_in_round fonts s p Hnd Hodd T Hr Hl
                    (nth_error_In _ _ Ep)).
        destruct k; assumption. }
      split.
      { rewrite (pick_outcome_counts s s' _ O).
        rewrite counter_get_incr_other by congruence. exact Hc. }
      assert (Hnew : ~ In (last fonts "") (round_winners s ++ [picked k p])).
      { intro H. apply in_app_or in H. destruct H as [H|[H|[]]];
          [contradiction|congruence]. }
      destruct (pick_outcome_cursor s s' _ O)
        as [(Hr' & Hf' & _ & Hw')|(Hr' & Hf' & _ & Hw')];
        rewrite Hr', Hf', Hw'.
      + split; [exact Hnew|exact Hl].
      + split; [intros []|]. intros _ H. apply Hnew.
        apply carry_over_in, H. }
  destruct H3 as (Hc & Hw & Hl). repeat split; try assumption.
  - unfold get_current_pair in H.
    eapply unpaired_not_in_round; eauto using reachable_tally, nth_error_In.
    apply (si_round s). eapply reachable_shape; eauto.
  - unfold get_current_pair in H.
    eapply unpaired_not_in_round; eauto using reachable_tally, nth_error_In.
    apply (si_round s). eapply reachable_shape; eauto.
Qed.

(** ** Inputs with a repeated font *)

(** The two results on the final summary need an input without repeated
    fonts.  With "Y" three times in the input, "Y" and the winner "X"
    both end with three wins and the first line of the summary is "Y". *)
Remark repeated_font_ties_with_winner :
  exists s,
    run ["Y"; "a"; "Y"; "b"; "X"; "c"; "d"; "e"]
        [Key_Left; Key_Left; Key_Left; Key_Left;
         Key_Left; Key_Left; Key_Right] = Ok s
    /\ is_finished s = true
    /\ final_winner s = Some "X"
    /\ counter_get (winner_counts s) "Y" = 3
    /\ counter_get (winner_counts s) "X" = 3
    /\ hd_error (result_lines s) = Some ("Y", 3).
Proof.
  let r := eval vm_compute in
    (run ["Y"; "a"; "Y"; "b"; "X"; "c"; "d"; "e"]
         [Key_Left; Key_Left; Key_Left; Key_Left;
          Key_Left; Key_Left; Key_Right]) in
  lazymatch r with Ok ?s => exists s end.
  split; [vm_compute; reflexivity|]. repeat split.
Qed.

(** With "A" at positions 0 and 5, "B" gets its key in the counter before
    "A" does, and the tie between them is listed "B" first although "A"
    comes first in the input. *)
Remark repeated_font_changes_tie_order :
  exists s,
    run ["A"; "B"; "X"; "Y"; "C"; "A"; "Z"; "W"]
        [Key_Right; Key_Left; Key_Right; Key_Left;
         Key_Right; Key_Right; Key_Left] = Ok s
    /\ is_finished s = true
    /\ result_lines s = [("X", 3); ("Z", 2); ("B", 1); ("A", 1)]
    /\ earlier ["A"; "B"; "X"; "Y"; "C"; "A"; "Z"; "W"] "A" "B".
Proof.
  let r := eval vm_compute in
    (run ["A"; "B"; "X"; "Y"; "C"; "A"; "Z"; "W"]
         [Key_Right; Key_Left; Key_Right; Key_Left;
          Key_Right; Key_Right; Key_Left]) in
  lazymatch r with Ok ?s => exists s end.
  split; [vm_compute; reflexivity|]. repeat split.
  unfold earlier. simpl. lia.
Qed.

(** * More of the application *)

(** ** The announced number of rounds *)

Lemma calculate_total_rounds_bounds (n : nat) :
  n <= 2 ^ calculate_total_rounds n
  /\ forall r, n <= 2 ^ r -> calculate_total_rounds n <= r.
Proof.
  funelim (calculate_total_rounds n).
  - split; [simpl; lia|intros; lia].
  - change (fst (Nat.divmod (num_fonts + 1) 1 0 1))
      with ((num_fonts + 1) / 2) in *.
    match goal with
    | IH : _ /\ _ |- _ => destruct IH as [Hup Hleast]
    end.
    pose proof (Nat.div_mod_eq (num_fonts + 1) 2) as Hd.
    assert ((num_fonts + 1) mod 2 < 2) by (apply Nat.mod_upper_bound; lia).
    split.
    + rewrite Nat.pow_succ_r'. lia.
    + intros [|r] Hr.
      * simpl in Hr. lia.
      * rewrite Nat.pow_succ_r' in Hr.
        assert ((num_fonts + 1) / 2 <= 2 ^ r) by lia.
        specialize (Hleast r). lia.
Qed.

(** X1.  [calculate_total_rounds n] is the least exponent [r] with
    [n <= 2 ^ r]: the base-2 logarithm of [n] rounded up (0 for 0 and
    1). *)
Theorem total_rounds_is_log2_up (n : nat) :
  n <= 2 ^ calculate_total_rounds n
  /\ (forall r, n <= 2 ^ r -> calculate_total_rounds n <= r)
  /\ (2 <= n -> 2 ^ (calculate_total_rounds n - 1) < n).
Proof.
  destruct (calculate_total_rounds_bounds n) as [Hup Hleast].
  split; [exact Hup|]. split; [exact Hleast|].
  intro Hn. destruct (le_lt_dec n (2 ^ (calculate_total_rounds n - 1)))
    as [H|H]; [|exact H].
  specialize (Hleast _ H).
  assert (calculate_total_rounds n = 0) by lia.
  rewrite H0 in Hup. simpl in Hup. lia.
Qed.

Lemma total_rounds_is_log2_up_witness :
  6 <= 2 ^ calculate_total_rounds 6
  /\ 2 ^ (calculate_total_rounds 6 - 1) < 6.
Proof.
  split.
  - apply (proj1 (total_rounds_is_log2_up 6)).
  - apply (proj2 (proj2 (total_rounds_is_log2_up 6))). lia.
Defined.

Lemma rounds_init (fonts : list font) (p : font * font) :
  2 <= length fonts -> rounds_inv fonts (show_pair (constructed fonts) p).
Proof.
  intro L. destruct (calculate_total_rounds_bounds (length fonts))
    as [Hup Hleast].
  assert (Hpos : 1 <= calculate_total_rounds (length fonts)).
  { destruct (calculate_total_rounds (length fonts)); [simpl in Hup|]; lia. }
  constructor;
    cbn [show_pair constructed total_rounds round_number current_round_fonts].
  - reflexivity.
  - exact Hpos.
  - replace (S (calculate_total_rounds (length fonts) - 1))
      with (calculate_total_rounds (length fonts)) by lia.
    exact Hup.
Qed.

Lemma rounds_pick (fonts : list font) (s s' : FontTesterApp) (w : font) :
  shape_inv s -> selection_enabled s = true ->
  rounds_inv fonts s -> pick_outcome s w s' ->
  rounds_inv fonts s'.
Proof.
  intros I Hsel [Ht Hr Hs] O.
  pose proof (si_pending s I Hsel) as Hp.
  pose proof (si_cursor s I) as Hc.
  destruct O as [p E ->|p E L Ep ->|E L ->];
    constructor;
    cbn [show_pair record_winner next_round result_shown
         total_rounds round_number current_round_fonts round_winners];
    try assumption.
  - (* a new round: at least two winners, so at least four fonts *)
    apply nth_error_None in E. rewrite length_app in L. cbn [length] in L.
    rewrite pairs_length in E, Hp.
    pose proof (Nat.div_mod_eq (length (current_round_fonts s)) 2).
    destruct (total_rounds s - round_number s) as [|d] eqn:Ed.
    + simpl in Hs. lia.
    + lia.
  - apply nth_error_None in E. rewrite length_app in L. cbn [length] in L.
    rewrite pairs_length in E, Hp.
    rewrite carry_over_length, length_app. cbn [length].
    pose proof (Nat.div_mod_eq (length (current_round_fonts s)) 2) as Hd.
    set (W := length (round_winners s) + 1) in *.
    assert (HW : W = length (current_round_fonts s) / 2) by lia.
    destruct (total_rounds s - round_number s) as [|d] eqn:Ed.
    + simpl in Hs. lia.
    + replace (total_rounds s - S (round_number s)) with d by lia.
      rewrite Nat.pow_succ_r' in Hs |- *.
      rewrite Nat.pow_succ_r' in Hs.
      pose proof (Nat.div_mod_eq W 2).
      assert (W mod 2 < 2) by (apply Nat.mod_upper_bound; lia).
      assert (length (current_round_fonts s) mod 2 < 2)
        by (apply Nat.mod_upper_bound; lia).
      lia.
Qed.

Lemma reachable_rounds (fonts : list font) (n : nat) (s : FontTesterApp) :
  reachable fonts n s -> rounds_inv fonts s.
Proof.
  induction 1 as [s H|n s k s' R IH Hsel E].
  - destruct (le_lt_dec 2 (length fonts)) as [L|L].
    + destruct (init_large fonts L) as (p & _ & E).
      rewrite E in H. injection H as <-. apply rounds_init, L.
    + rewrite init_small in H by exact L. discriminate.
  - destruct (select_outcome k s s' Hsel E) as (p & _ & O).
    eapply rounds_pick; eauto. eapply reachable_shape; eauto.
Qed.

(** X2.  The round counter never passes the number of rounds computed at
    construction: in every reachable state
    [1 <= round_number <= total_rounds], and [total_rounds] is still
    [calculate_total_rounds] of the number of input fonts. *)
Theorem round_number_within_total
    (fonts : list font) (n : nat) (s : FontTesterApp) :
  reachable fonts n s ->
  1 <= round_number s /\ round_number s <= total_rounds s
  /\ total_rounds s = calculate_total_rounds (length fonts).
Proof.
  intro R. destruct (reachable_rounds fonts n s R) as [Ht Hr _].
  split; [apply (si_round s); eapply reachable_shape; eauto|].
  split; assumption.
Qed.

Lemma round_number_within_total_witness :
  exists s,
    reachable ["A"; "B"; "C"; "D"; "E"; "F"] 4 s
    /\ 1 <= round_number s /\ round_number s <= total_rounds s
    /\ total_rounds s
       = calculate_total_rounds (length ["A"; "B"; "C"; "D"; "E"; "F"]).
Proof.
  eexists. split.
  - reach_by ["A"; "B"; "C"; "D"; "E"; "F"]
             [Key_Left; Key_Right; Key_Left; Key_Right].
  - apply (round_number_within_total ["A"; "B"; "C"; "D"; "E"; "F"] 4).
    reach_by ["A"; "B"; "C"; "D"; "E"; "F"]
             [Key_Left; Key_Right; Key_Left; Key_Right].
Defined.

(** ** Picks and events never raise *)

Lemma run_from_ok (fonts : list font) (picks : list pick) :
  forall n s, reachable fonts n s -> exists s', run_from s picks = Ok s'.
Proof.
  induction picks as [|k picks IH]; intros n s R; cbn [run_from].
  - eauto.
  - destruct (selection_enabled s) eqn:Hsel.
    + pose proof (si_pending s (reachable_shape fonts n s R) Hsel) as Hp.
      destruct (nth_error (pairs (current_round_fonts s))
                          (current_pair_index s)) as [p|] eqn:Ep.
      * destruct (select_pending k s p Hsel Ep) as (s1 & E1 & _).
        rewrite E1. apply (IH (S n)). eapply reach_pick; eauto.
      * apply nth_error_None in Ep. lia.
    + rewrite select_disabled by exact Hsel. apply (IH n), R.
Qed.

(** X3.  Once the application is constructed (at least two fonts), no
    sequence of clicks on the two buttons raises: [pairs[current_pair_index]]
    in [select_left] and [select_right] is always in range and
    [display_result] always finds a winner. *)
Theorem picks_never_raise (fonts : list font) (picks : list pick) :
  2 <= length fonts -> exists s, run fonts picks = Ok s.
Proof.
  intro L. destruct (init_large fonts L) as (p & _ & E).
  unfold run. rewrite E.
  apply (run_from_ok fonts picks 0). apply reach_init, E.
Qed.

Lemma picks_never_raise_witness :
  exists s, run ["A"; "B"; "C"] [Key_Right; Key_Left; Key_Left] = Ok s.
Proof. apply picks_never_raise. simpl. lia. Defined.

Lemma run_from_finished (fonts : list font) (picks : list pick) :
  forall n s s',
    reachable fonts n s -> run_from s picks = Ok s' ->
    (is_finished s' = true <-> picks_left s <= length picks).
Proof.
  induction picks as [|k picks IH]; intros n s s' R E; cbn [run_from] in E.
  - injection E as <-. unfold picks_left, is_finished.
    destruct (selection_enabled s) eqn:Hsel; cbn [negb length].
    + pose proof (si_pending s (reachable_shape fonts n s R) Hsel).
      split; [discriminate|lia].
    + split; [lia|reflexivity].
  - destruct (select k s) as [s1| |] eqn:E1; try discriminate.
    destruct (selection_enabled s) eqn:Hsel.
    + destruct (select_outcome k s s1 Hsel E1) as (p & _ & O).
      rewrite (picks_left_pick s s1 _ (reachable_shape fonts n s R) Hsel O).
      rewrite (IH (S n) s1 s' (reach_pick fonts n s k s1 R Hsel E1) E).
      cbn [length]. lia.
    + rewrite select_disabled in E1 by exact Hsel. injection E1 as <-.
      rewrite (IH n s s' R E). unfold picks_left. rewrite Hsel.
      cbn [length]. lia.
Qed.

(** X4.  Whatever sides are picked, the result is on the screen exactly
    from the [picks_needed N]-th click on, for every input of [N >= 2]
    fonts: a run of clicks ends with the result shown if and only if it
    has at least [picks_needed N] clicks.  Every tournament ends. *)
Theorem result_shown_from_picks_needed
    (fonts : list font) (picks : list pick) :
  2 <= length fonts ->
  exists s,
    run fonts picks = Ok s
    /\ (is_finished s = true <-> picks_needed (length fonts) <= length picks).
Proof.
  intro L. destruct (init_large fonts L) as (p & _ & E).
  pose proof (reach_init fonts _ E) as R0.
  destruct (run_from_ok fonts picks 0 _ R0) as [s Es].
  exists s. unfold run. rewrite E. split; [exact Es|].
  rewrite (run_from_finished fonts picks 0 _ s R0 Es).
  pose proof (picks_made_and_left fonts 0 _ R0) as H. cbn [Nat.add] in H.
  rewrite H. reflexivity.
Qed.

Lemma result_shown_from_picks_needed_witness :
  exists s,
    run ["A"; "B"; "C"; "D"; "E"] [Key_Left; Key_Right; Key_Left] = Ok s
    /\ (is_finished s = true
        <-> picks_needed (length ["A"; "B"; "C"; "D"; "E"])
            <= length [Key_Left; Key_Right; Key_Left]).
Proof. apply result_shown_from_picks_needed. simpl. lia. Defined.

Lemma eventFilter_cases (fonts : list font) (n : nat) (s : FontTesterApp)
    (ev : event) :
  reachable fonts n s ->
  (exists k s',
     ev = KeyPress (Some k) /\ selection_enabled s = true
     /\ select k s = Ok s' /\ eventFilter s ev = Ok (s', Handled)
     /\ reachable fonts (S n) s')
  \/ (eventFilter s ev = Ok (s, PassedToBase)
      /\ ((forall k, ev <> KeyPress (Some k))
          \/ selection_enabled s = false)).
Proof.
  intro R. destruct ev as [[k|]|]; cbn [eventFilter].
  - destruct (selection_enabled s) eqn:Hsel.
    + left. pose proof (si_pending s (reachable_shape fonts n s R) Hsel) as Hp.
      destruct (nth_error (pairs (current_round_fonts s))
                          (current_pair_index s)) as [p|] eqn:Ep.
      * destruct (select_pending k s p Hsel Ep) as (s' & E & _).
        exists k, s'. rewrite E. repeat split; auto.
        eapply reach_pick; eauto.
      * apply nth_error_None in Ep. lia.
    + right. auto.
  - right. split.
    + destruct (selection_enabled s); reflexivity.
    + left. intros k H. discriminate.
  - right. split; [reflexivity|]. left. intros k H. discriminate.
Qed.

(** X5.  [eventFilter] never raises on a reachable state.  It handles an
    event (returns [True]) exactly when the event is a press of the left
    or right arrow key while selection is enabled, and then does what
    the matching button does; every other event is passed to the base
    class with the state untouched.  No sequence of events raises. *)
Theorem eventFilter_handles_arrow_keys_only
    (fonts : list font) (n : nat) (s : FontTesterApp) :
  reachable fonts n s ->
  (forall ev,
     exists s' f,
       eventFilter s ev = Ok (s', f)
       /\ (f = Handled <->
           (exists k, ev = KeyPress (Some k)) /\ selection_enabled s = true)
       /\ (f = Handled -> exists k, ev = KeyPress (Some k)
                                    /\ select k s = Ok s')
       /\ (f = PassedToBase -> s' = s))
  /\ (forall evs, exists s', run_events s evs = Ok s').
Proof.
  intro R. split.
  - intro ev.
    destruct (eventFilter_cases fonts n s ev R)
      as [(k & s' & -> & Hsel & E & Ef & _)|(Ef & Hwhy)].
    + exists s', Handled. split; [exact Ef|]. split; [|split].
      * split; [eauto|reflexivity].
      * intros _. eauto.
      * discriminate.
    + exists s, PassedToBase. split; [exact Ef|]. split; [|split].
      * split; [discriminate|].
        intros [[k ->] Hsel]. destruct Hwhy as [H|H].
        -- exfalso. apply (H k). reflexivity.
        -- congruence.
      * discriminate.
      * reflexivity.
  - intro evs. revert n s R.
    induction evs as [|ev evs IH]; intros n s R; cbn [run_events].
    + eauto.
    + destruct (eventFilter_cases fonts n s ev R)
        as [(k & s' & _ & _ & _ & Ef & R')|(Ef & _)]; rewrite Ef.
      * apply (IH (S n)), R'.
      * apply (IH n), R.
Qed.

Lemma eventFilter_handles_arrow_keys_only_witness :
  exists s,
    reachable ["A"; "B"; "C"; "D"] 1 s
    /\ forall evs, exists s', run_events s evs = Ok s'.
Proof.
  eexists. split.
  - reach_by ["A"; "B"; "C"; "D"] [Key_Left].
  - refine (proj2 (eventFilter_handles_arrow_keys_only
                     ["A"; "B"; "C"; "D"] 1 _ _)).
    reach_by ["A"; "B"; "C"; "D"] [Key_Left].
Defined.

(** ** Where the fonts on the screen come from *)

Lemma counter_get_no_key (c : Counter) (f : font) :
  ~ In f (counter_keys c) -> counter_get c f = 0.
Proof.
  unfold counter_keys. induction c as [|[g m] c IH]; simpl; [reflexivity|].
  intro H. destruct (String.eqb_spec g f); [tauto|]. apply IH. tauto.
Qed.

Lemma counter_keys_incr_incl (c : Counter) (f : font) :
  incl (counter_keys (counter_incr c f)) (f :: counter_keys c).
Proof.
  destruct (in_dec string_dec f (counter_keys c)) as [H|H].
  - rewrite counter_keys_incr_old by exact H. apply incl_tl, incl_refl.
  - rewrite counter_keys_incr_new by exact H.
    intros x Hx. apply in_app_or in Hx. simpl in *. tauto.
Qed.

Lemma origin_pick (fonts : list font) (s s' : FontTesterApp)
    (p : font * font) (w : font) :
  origin_inv fonts s ->
  nth_error (pairs (current_round_fonts s)) (current_pair_index s) = Some p ->
  w = fst p \/ w = snd p ->
  pick_outcome s w s' ->
  origin_inv fonts s'.
Proof.
  intros [Hr Hw Hk] Ep Hp O.
  assert (Hin : In w (current_round_fonts s)).
  { destruct (pairs_in _ p (nth_error_In _ _ Ep)).
    destruct Hp as [->| ->]; assumption. }
  assert (Hw' : incl (round_winners s ++ [w]) (current_round_fonts s)).
  { apply incl_app; [exact Hw|]. intros x [<-|[]]. exact Hin. }
  assert (Hk' : incl (counter_keys (counter_incr (winner_counts s) w)) fonts).
  { intros x Hx. apply counter_keys_incr_incl in Hx.
    destruct Hx as [<-|Hx]; [apply Hr, Hin|apply Hk, Hx]. }
  destruct O as [q E ->|q E L Eq ->|E L ->];
    constructor;
    cbn [show_pair record_winner next_round result_shown
         current_round_fonts round_winners winner_counts];
    try assumption.
  - intros x Hx. apply Hr, Hw', carry_over_in, Hx.
  - intros x [].
Qed.

Lemma reachable_origin (fonts : list font) (n : nat) (s : FontTesterApp) :
  reachable fonts n s -> origin_inv fonts s.
Proof.
  induction 1 as [s H|n s k s' R IH Hsel E].
  - destruct (le_lt_dec 2 (length fonts)) as [L|L].
    + destruct (init_large fonts L) as (p & _ & E).
      rewrite E in H. injection H as <-.
      constructor;
        cbn [show_pair constructed current_round_fonts round_winners
             winner_counts counter_keys map].
      * apply incl_refl.
      * intros x [].
      * intros x [].
    + rewrite init_small in H by exact L. discriminate.
  - destruct (select_outcome k s s' Hsel E) as (p & Ep & O).
    eapply origin_pick; eauto using picked_side.
Qed.

(** X6.  The application never shows or counts a font that was not in
    the list it was constructed with: the fonts of the current round,
    the winners, every font with a count, the pair under the cursor and
    the final winner all come from the input. *)
Theorem fonts_come_from_input
    (fonts : list font) (n : nat) (s : FontTesterApp) :
  reachable fonts n s ->
  (forall f, In f (current_round_fonts s) -> In f fonts)
  /\ (forall f, In f (round_winners s) -> In f fonts)
  /\ (forall f, 0 < counter_get (winner_counts s) f -> In f fonts)
  /\ (forall p, get_current_pair s = Some p ->
                In (fst p) fonts /\ In (snd p) fonts)
  /\ (forall w, final_winner s = Some w -> In w fonts).
Proof.
  intro R. destruct (reachable_origin fonts n s R) as [Hr Hw Hk].
  split; [exact Hr|].
  assert (Hw' : forall f, In f (round_winners s) -> In f fonts)
    by (intros f Hf; apply Hr, Hw, Hf).
  split; [exact Hw'|]. split; [|split].
  - intros f Hf. apply Hk.
    destruct (in_dec string_dec f (counter_keys (winner_counts s)))
      as [H|H]; [exact H|].
    rewrite (counter_get_no_key _ f H) in Hf. lia.
  - intros p Hp. unfold get_current_pair in Hp.
    destruct (pairs_in _ p (nth_error_In _ _ Hp)). split; apply Hr; assumption.
  - intros w H. unfold final_winner in H.
    apply Hw'. eapply nth_error_In; eauto.
Qed.

Lemma fonts_come_from_input_witness :
  exists s,
    reachable ["A"; "B"; "C"; "D"] 2 s
    /\ (forall f, In f (current_round_fonts s) -> In f ["A"; "B"; "C"; "D"]).
Proof.
  eexists. split.
  - reach_by ["A"; "B"; "C"; "D"] [Key_Right; Key_Left].
  - refine (proj1 (fonts_come_from_input ["A"; "B"; "C"; "D"] 2 _ _)).
    reach_by ["A"; "B"; "C"; "D"] [Key_Right; Key_Left].
Defined.

(** ** What is on the screen while a pair is pending *)

(** X7.  While selection is enabled the status label reads the current
    round, the announced total, the number of the pair under the cursor
    (counted from 1) and the number of pairs of the round; the pair
    number lies between 1 and the number of pairs, and the two panels
    show the pair under the cursor. *)
Theorem status_line_follows_cursor
    (fonts : list font) (n : nat) (s : FontTesterApp) :
  reachable fonts n s ->
  selection_enabled s = true ->
  status_label s
  = StatusPair (round_number s) (total_rounds s)
               (current_pair_index s + 1)
               (length (pairs (current_round_fonts s)))
  /\ 1 <= current_pair_index s + 1
  /\ current_pair_index s + 1 <= length (pairs (current_round_fonts s))
  /\ get_current_pair s = Some (left_font_label s, right_font_label s).
Proof.
  intros R Hsel.
  pose proof (reachable_shape fonts n s R) as I.
  pose proof (si_pending s I Hsel) as Hp.
  split; [|split; [lia|split; [lia|apply (si_panels s I Hsel)]]].
  inversion R as [s0 H|m s0 k s1 R0 Hsel0 E]; subst.
  - destruct (le_lt_dec 2 (length fonts)) as [L|L].
    + destruct (init_large fonts L) as (p & _ & E).
      rewrite E in H. injection H as <-. reflexivity.
    + rewrite init_small in H by exact L. discriminate.
  - destruct (select_outcome k s0 s Hsel0 E) as (p & _ & O).
    destruct O as [q Eq ->|q Eq L Eq' ->|Eq L ->];
      [reflexivity|reflexivity|discriminate].
Qed.

Lemma status_line_follows_cursor_witness :
  exists s,
    reachable ["A"; "B"; "C"; "D"] 1 s
    /\ selection_enabled s = true
    /\ status_label s = StatusPair 1 2 2 2.
Proof.
  eexists. split; [reach_by ["A"; "B"; "C"; "D"] [Key_Left]|].
  split; [reflexivity|].
  refine (proj1 (status_line_follows_cursor ["A"; "B"; "C"; "D"] 1 _ _ _)).
  - reach_by ["A"; "B"; "C"; "D"] [Key_Left].
  - reflexivity.
Defined.

(** X8.  Constructing the application with at least two fonts succeeds
    and shows the first two fonts of the list: round 1 of
    [calculate_total_rounds N], pair 1 of [N // 2], selection enabled, no
    winner and no count yet. *)
Theorem init_shows_first_pair (a b : font) (rest : list font) :
  exists s,
    init (a :: b :: rest) = Ok s
    /\ left_font_label s = a /\ right_font_label s = b
    /\ current_round_fonts s = a :: b :: rest
    /\ round_winners s = [] /\ winner_counts s = []
    /\ current_pair_index s = 0 /\ selection_enabled s = true
    /\ status_label s
       = StatusPair 1 (calculate_total_rounds (length (a :: b :: rest)))
                    1 (length (a :: b :: rest) / 2).
Proof.
  assert (L : 2 <= length (a :: b :: rest)) by (cbn [length]; lia).
  destruct (init_large _ L) as (p & Hp & E).
  rewrite pairs_cons2 in Hp. cbn [nth_error] in Hp. injection Hp as <-.
  eexists. split; [exact E|].
  cbn [show_pair constructed left_font_label right_font_label fst snd
       current_round_fonts round_winners winner_counts current_pair_index
       selection_enabled status_label round_number total_rounds Nat.add].
  rewrite pairs_length. repeat split.
Qed.

(** X9.  A recorded pick credits exactly the font on the chosen panel:
    [select_left] adds one to the count of the left font and
    [select_right] to the count of the right font, and the count of
    every other font stays as it was. *)
Theorem pick_credits_chosen_panel
    (fonts : list font) (n : nat) (s s' : FontTesterApp) (k : pick) :
  reachable fonts n s ->
  selection_enabled s = true ->
  select k s = Ok s' ->
  let chosen := match k with
                | Key_Left => left_font_label s
                | Key_Right => right_font_label s
                end in
  counter_get (winner_counts s') chosen
  = S (counter_get (winner_counts s) chosen)
  /\ forall f, f <> chosen ->
       counter_get (winner_counts s') f = counter_get (winner_counts s) f.
Proof.
  intros R Hsel E chosen.
  pose proof (si_panels s (reachable_shape fonts n s R) Hsel) as Hp.
  destruct (select_outcome k s s' Hsel E) as (p & Ep & O).
  rewrite Hp in Ep. injection Ep as <-.
  assert (Hc : picked k (left_font_label s, right_font_label s) = chosen)
    by (destruct k; reflexivity).
  rewrite Hc in O. rewrite (pick_outcome_counts s s' chosen O). split.
  - apply counter_get_incr_same.
  - intros f Hf. apply counter_get_incr_other, Hf.
Qed.

Lemma pick_credits_chosen_panel_witness :
  exists s s',
    reachable ["A"; "B"; "C"; "D"] 1 s
    /\ select Key_Right s = Ok s'
    /\ counter_get (winner_counts s') (right_font_label s)
       = S (counter_get (winner_counts s) (right_font_label s)).
Proof.
  eexists. eexists.
  split; [reach_by ["A"; "B"; "C"; "D"] [Key_Left]|].
  split; [vm_compute; reflexivity|].
  refine (proj1 (pick_credits_chosen_panel
                   ["A"; "B"; "C"; "D"] 1 _ _ Key_Right _ _ _)).
  - reach_by ["A"; "B"; "C"; "D"] [Key_Left].
  - reflexivity.
  - vm_compute; reflexivity.
Defined.

(** ** The summary on any input *)

Lemma insert_desc_by_count (x : font * nat) (l : list (font * nat)) :
  StronglySorted (fun a b => snd b <= snd a) l ->
  StronglySorted (fun a b => snd b <= snd a) (insert_desc x l).
Proof.
  induction 1 as [|y l Hl IH Hy]; cbn [insert_desc].
  - repeat constructor.
  - destruct (Nat.leb_spec (snd y) (snd x)) as [L|L].
    + constructor; [constructor; assumption|].
      constructor; [exact L|].
      eapply Forall_impl; [|exact Hy]. cbn beta. intros z Hz. lia.
    + constructor; [exact IH|].
      eapply Permutation_Forall; [symmetry; apply insert_desc_perm|].
      constructor; [lia|exact Hy].
Qed.

Lemma sorted_desc_by_count (l : list (font * nat)) :
  StronglySorted (fun a b => snd b <= snd a) (sorted_desc l).
Proof.
  induction l as [|x l IH]; cbn [sorted_desc fold_right].
  - constructor.
  - apply insert_desc_by_count, IH.
Qed.

Lemma insert_desc_same_count (c : nat) (x : font * nat)
    (l : list (font * nat)) :
  filter (fun e => snd e =? c) (insert_desc x l)
  = filter (fun e => snd e =? c) (x :: l).
Proof.
  induction l as [|y l IH]; cbn [insert_desc]; [reflexivity|].
  destruct (Nat.leb_spec (snd y) (snd x)) as [L|L]; [reflexivity|].
  cbn [filter] in IH |- *. rewrite IH.
  destruct (Nat.eqb_spec (snd x) c) as [Ex|Ex];
    destruct (Nat.eqb_spec (snd y) c) as [Ey|Ey]; try reflexivity.
  lia.
Qed.

Lemma sorted_desc_same_count (c : nat) (l : list (font * nat)) :
  filter (fun e => snd e =? c) (sorted_desc l)
  = filter (fun e => snd e =? c) l.
Proof.
  induction l as [|x l IH]; cbn [sorted_desc fold_right]; [reflexivity|].
  fold (sorted_desc l). rewrite insert_desc_same_count.
  cbn [filter]. rewrite IH. reflexivity.
Qed.

Lemma reachable_counts_positive
    (fonts : list font) (n : nat) (s : FontTesterApp) :
  reachable fonts n s -> Forall (fun e => 0 < snd e) (winner_counts s).
Proof.
  induction 1 as [s H|n s k s' R IH Hsel E].
  - destruct (le_lt_dec 2 (length fonts)) as [L|L].
    + destruct (init_large fonts L) as (p & _ & E).
      rewrite E in H. injection H as <-. constructor.
    + rewrite init_small in H by exact L. discriminate.
  - destruct (select_outcome k s s' Hsel E) as (p & _ & O).
    rewrite (pick_outcome_counts s s' _ O).
    apply counter_incr_positive, IH.
Qed.

(** X10.  On every input, once the result is shown the status label
    holds the first six lines (all of them when there are fewer) of the
    entries of [winner_counts] ordered by count from high to low; every
    line is a font with its own count, which is at least 1: a font that
    never won is not listed. *)
Theorem summary_lines_on_any_input
    (fonts : list font) (n : nat) (s : FontTesterApp) :
  reachable fonts n s -> is_finished s = true ->
  exists lines,
    status_label s = StatusResult lines
    /\ lines = firstn 6 (result_lines s)
    /\ length lines = Nat.min 6 (length (winner_counts s))
    /\ Permutation (result_lines s) (winner_counts s)
    /\ StronglySorted (fun a b => snd b <= snd a) (result_lines s)
    /\ Forall (fun e => 1 <= snd e
                        /\ counter_get (winner_counts s) (fst e) = snd e)
              (result_lines s).
Proof.
  intros R F. pose proof (reachable_shape fonts n s R) as I.
  assert (Hsel : selection_enabled s = false).
  { unfold is_finished in F. destruct (selection_enabled s);
      [discriminate|reflexivity]. }
  pose proof (sorted_desc_perm (winner_counts s)) as P.
  fold (result_lines s) in P.
  exists (firstn 6 (result_lines s)).
  split; [apply (si_status s I Hsel)|]. split; [reflexivity|].
  split; [rewrite length_firstn, (Permutation_length P); reflexivity|].
  split; [exact P|]. split; [apply sorted_desc_by_count|].
  eapply Permutation_Forall; [symmetry; exact P|].
  pose proof (reachable_counts_positive fonts n s R) as Hpos.
  rewrite Forall_forall in Hpos |- *. intros [f c] Hin. cbn [fst snd].
  split; [apply (Hpos _ Hin)|].
  apply counter_get_entry; [apply (si_keys s I)|exact Hin].
Qed.

Lemma summary_lines_on_any_input_witness :
  exists s,
    reachable ["A"; "B"] 1 s /\ is_finished s = true
    /\ exists lines,
         status_label s = StatusResult lines
         /\ lines = firstn 6 (result_lines s)
         /\ length lines = Nat.min 6 (length (winner_counts s))
         /\ Permutation (result_lines s) (winner_counts s)
         /\ StronglySorted (fun a b => snd b <= snd a) (result_lines s)
         /\ Forall (fun e => 1 <= snd e
                             /\ counter_get (winner_counts s) (fst e) = snd e)
                   (result_lines s).
Proof.
  eexists. split; [reach_by ["A"; "B"] [Key_Right]|].
  split; [reflexivity|].
  apply (summary_lines_on_any_input ["A"; "B"] 1).
  - reach_by ["A"; "B"] [Key_Right].
  - reflexivity.
Defined.

(** X11.  The sort of the summary is stable: for every count, the fonts
    with that count stand in the summary in the order their keys have in
    [winner_counts], that is, in the order in which they won their first
    comparison. *)
Theorem summary_ties_keep_counter_order (s : FontTesterApp) (c : nat) :
  filter (fun e => snd e =? c) (result_lines s)
  = filter (fun e => snd e =? c) (winner_counts s).
Proof. apply sorted_desc_same_count. Qed.

(** ** Pairs and rounds *)

Lemma flat_pairs_cons (p : font * font) (ps : list (font * font)) :
  flat_pairs (p :: ps) = fst p :: snd p :: flat_pairs ps.
Proof. reflexivity. Qed.

Lemma flat_pairs_firstn (l : list font) :
  flat_pairs (pairs l) = firstn (2 * (length l / 2)) l.
Proof.
  induction l as [| a | a b l IH] using list_ind_by_two.
  - reflexivity.
  - reflexivity.
  - rewrite pairs_cons2, flat_pairs_cons, IH. cbn [fst snd length].
    replace (S (S (length l))) with (length l + 1 * 2) by lia.
    rewrite Nat.div_add by lia.
    replace (2 * (length l / 2 + 1)) with (S (S (2 * (length l / 2)))) by lia.
    reflexivity.
Qed.

Lemma flat_pairs_even (l : list font) :
  length l mod 2 = 0 -> flat_pairs (pairs l) = l.
Proof.
  intro H. pose proof (Nat.div_mod_eq (length l) 2) as Hd.
  rewrite flat_pairs_firstn. apply firstn_all2. lia.
Qed.

Lemma flat_pairs_odd (l : list font) :
  length l mod 2 = 1 -> flat_pairs (pairs l) = removelast l.
Proof.
  intro H. destruct (exists_last (l := l)) as (l' & e & ->).
  { intros ->. discriminate. }
  rewrite removelast_last, flat_pairs_firstn.
  rewrite length_app in H |- *. cbn [length] in H |- *.
  pose proof (Nat.div_mod_eq (length l' + 1) 2) as Hd.
  replace (2 * ((length l' + 1) / 2)) with (length l' + 0) by lia.
  rewrite firstn_app_2. cbn [firstn]. apply app_nil_r.
Qed.

(** X12.  The pairs of a round, read in order, are the round itself
    when its length is even and the round without its last font when
    its length is odd: [zip] over the two slices keeps every font but an
    unpaired last one, each once and in place. *)
Theorem pairs_keep_all_but_odd_last (l : list font) :
  length (pairs l) = length l / 2
  /\ (length l mod 2 = 0 -> flat_pairs (pairs l) = l)
  /\ (length l mod 2 = 1 -> flat_pairs (pairs l) = removelast l).
Proof.
  split; [apply pairs_length|].
  split; [apply flat_pairs_even|apply flat_pairs_odd].
Qed.

Lemma pairs_keep_all_but_odd_last_witness :
  flat_pairs (pairs ["A"; "B"; "C"]) = removelast ["A"; "B"; "C"].
Proof.
  refine (proj2 (proj2 (pairs_keep_all_but_odd_last ["A"; "B"; "C"])) _).
  reflexivity.
Defined.

Lemma carry_over_even_length (ws : list font) :
  length (carry_over ws) mod 2 = 0.
Proof.
  rewrite carry_over_length.
  pose proof (Nat.div_mod_eq (length ws) 2) as Hd.
  assert (Hlt : length ws mod 2 < 2) by (apply Nat.mod_upper_bound; lia).
  destruct (Nat.eq_dec (length ws mod 2) 0) as [E|E].
  - rewrite E, Nat.add_0_r. exact E.
  - assert (E1 : length ws mod 2 = 1) by lia. rewrite E1.
    replace (length ws + 1) with ((length ws / 2 + 1) * 2) by lia.
    apply Nat.Div0.mod_mul.
Qed.

(** X13.  Every round after the first has an even number of fonts, so
    from round 2 on the pairs of the round hold every font of the round:
    only round 1 can leave a font unpaired. *)
Theorem later_rounds_are_even
    (fonts : list font) (n : nat) (s : FontTesterApp) :
  reachable fonts n s ->
  1 < round_number s ->
  length (current_round_fonts s) mod 2 = 0
  /\ flat_pairs (pairs (current_round_fonts s)) = current_round_fonts s.
Proof.
  intros R Hr.
  assert (He : length (current_round_fonts s) mod 2 = 0).
  { induction R as [s H|n s k s' R IH Hsel E].
    - destruct (le_lt_dec 2 (length fonts)) as [L|L].
      + destruct (init_large fonts L) as (p & _ & E).
        rewrite E in H. injection H as <-. cbn in Hr. lia.
      + rewrite init_small in H by exact L. discriminate.
    - destruct (select_outcome k s s' Hsel E) as (p & _ & O).
      destruct (pick_outcome_cursor s s' _ O)
        as [(Hr' & Hf' & _)|(Hr' & Hf' & _)]; rewrite Hf'.
      + apply IH. lia.
      + apply carry_over_even_length. }
  split; [exact He|]. apply flat_pairs_even, He.
Qed.

Lemma later_rounds_are_even_witness :
  exists s,
    reachable ["A"; "B"; "C"; "D"; "E"; "F"; "G"] 3 s
    /\ 1 < round_number s
    /\ length (current_round_fonts s) mod 2 = 0
    /\ flat_pairs (pairs (current_round_fonts s)) = current_round_fonts s.
Proof.
  eexists.
  split; [reach_by ["A"; "B"; "C"; "D"; "E"; "F"; "G"]
                   [Key_Left; Key_Left; Key_Right]|].
  split; [vm_compute; lia|].
  apply (later_rounds_are_even ["A"; "B"; "C"; "D"; "E"; "F"; "G"] 3).
  - reach_by ["A"; "B"; "C"; "D"; "E"; "F"; "G"]
             [Key_Left; Key_Left; Key_Right].
  - vm_compute; lia.
Defined.

(** ** Fonts that lose *)

Lemma eliminated_select (l : font) (c : nat) (k : pick)
    (s s' : FontTesterApp) :
  eliminated l c s -> select k s = Ok s' -> eliminated l c s'.
Proof.
  intros [Hc Hw Hp] E. destruct (selection_enabled s) eqn:Hsel.
  - destruct (select_outcome k s s' Hsel E) as (p & Ep & O).
    pose proof (skipn_nth_error _ _ _ _ Ep) as Hskip.
    assert (Hne : picked k p <> l).
    { destruct (Hp p) as [H1 H2]; [rewrite Hskip; left; reflexivity|].
      destruct k; assumption. }
    assert (Hnew : ~ In l (round_winners s ++ [picked k p])).
    { intro H. apply in_app_or in H. destruct H as [H|[H|[]]];
        [contradiction|congruence]. }
    assert (Hrest : forall q,
               In q (skipn (S (current_pair_index s))
                           (pairs (current_round_fonts s))) ->
               fst q <> l /\ snd q <> l).
    { intros q Hq. apply Hp. rewrite Hskip. right. exact Hq. }
    destruct O as [q Eq ->|q Eq L Eq' ->|Eq L ->];
      constructor;
      cbn [show_pair record_winner next_round result_shown
           current_pair_index round_winners current_round_fonts
           winner_counts skipn];
      try (rewrite counter_get_incr_other by congruence; exact Hc);
      try assumption.
    + intros [].
    + intros q' Hq'. destruct (pairs_in _ q' Hq') as [H1 H2].
      apply carry_over_in in H1, H2.
      split; intro H; rewrite H in *; contradiction.
  - rewrite select_disabled in E by exact Hsel. injection E as <-.
    constructor; assumption.
Qed.

Lemma eliminated_run (l : font) (c : nat) (picks : list pick) :
  forall s s', eliminated l c s -> run_from s picks = Ok s' ->
               eliminated l c s'.
Proof.
  induction picks as [|k picks IH]; intros s s' H E; cbn [run_from] in E.
  - injection E as <-. exact H.
  - destruct (select k s) as [s1| |] eqn:E1; try discriminate.
    eapply IH; [|exact E]. eapply eliminated_select; eauto.
Qed.

Lemma loser_eliminated (fonts : list font) (n : nat)
    (s s' : FontTesterApp) (k : pick) (p : font * font) :
  NoDup fonts -> reachable fonts n s ->
  selection_enabled s = true ->
  nth_error (pairs (current_round_fonts s)) (current_pair_index s) = Some p ->
  select k s = Ok s' ->
  unpicked k p <> picked k p ->
  eliminated (unpicked k p)
             (counter_get (winner_counts s) (unpicked k p)) s'.
Proof.
  intros Hnd R Hsel Ep E Hne.
  pose proof (reachable_tally fonts n s Hnd R) as T.
  pose proof (skipn_nth_error _ _ _ _ Ep) as Hskip.
  destruct (select_outcome k s s' Hsel E) as (p' & Ep' & O).
  rewrite Ep in Ep'. injection Ep' as <-.
  set (l := unpicked k p) in *. set (w := picked k p) in *.
  assert (Hl : l = fst p \/ l = snd p) by (destruct k; simpl; auto).
  assert (Hcl : S (counter_get (winner_counts s) l) = round_number s).
  { destruct (ti_waiting fonts s T p) as [H1 H2].
    - rewrite Hskip. left. reflexivity.
    - destruct Hl as [->| ->]; assumption. }
  assert (Hnl : ~ In l (round_winners s)).
  { intro H. apply (ti_won fonts s T) in H. lia. }
  assert (Hnew : ~ In l (round_winners s ++ [w])).
  { intro H. apply in_app_or in H. destruct H as [H|[H|[]]];
      [contradiction|congruence]. }
  assert (Hrest : forall q,
             In q (skipn (S (current_pair_index s))
                         (pairs (current_round_fonts s))) ->
             fst q <> l /\ snd q <> l).
  { pose proof (separated_skipn _ (current_pair_index s)
                  (ti_separated fonts s T)) as Hs.
    rewrite Hskip in Hs. destruct Hs as [Hs _].
    rewrite Forall_forall in Hs. intros q Hq.
    destruct (Hs q Hq) as (H1 & H2 & H3 & H4).
    destruct Hl as [->| ->]; split; congruence. }
  destruct O as [q Eq ->|q Eq L Eq' ->|Eq L ->];
    constructor;
    cbn [show_pair record_winner next_round result_shown
         current_pair_index round_winners current_round_fonts
         winner_counts skipn];
    try (apply counter_get_incr_other; exact Hne);
    try assumption.
  - intros [].
  - intros q' Hq'. destruct (pairs_in _ q' Hq') as [H1 H2].
    apply carry_over_in in H1, H2.
    split; intro H; rewrite H in *; contradiction.
Qed.

(** X14.  On an input without repeated fonts a lost comparison is final:
    the font of the pair that was not picked keeps the count it had, is
    never again in the pair under the cursor, never among the winners of
    a round and never the final winner, however the tournament goes
    on. *)
Theorem loser_is_out
    (fonts : list font) (n : nat) (s s' s'' : FontTesterApp)
    (k : pick) (p : font * font) (picks : list pick) :
  NoDup fonts -> reachable fonts n s ->
  selection_enabled s = true ->
  get_current_pair s = Some p ->
  unpicked k p <> picked k p ->
  select k s = Ok s' ->
  run_from s' picks = Ok s'' ->
  counter_get (winner_counts s'') (unpicked k p)
  = counter_get (winner_counts s) (unpicked k p)
  /\ ~ In (unpicked k p) (round_winners s'')
  /\ final_winner s'' <> Some (unpicked k p)
  /\ (forall q, get_current_pair s'' = Some q ->
                fst q <> unpicked k p /\ snd q <> unpicked k p).
Proof.
  intros Hnd R Hsel Ep Hne E Erun. unfold get_current_pair in Ep.
  pose proof (loser_eliminated fonts n s s' k p Hnd R Hsel Ep E Hne) as H.
  destruct (eliminated_run _ _ picks s' s'' H Erun) as [Hc Hw Hp].
  split; [exact Hc|]. split; [exact Hw|]. split.
  - unfold final_winner. intro H0. apply Hw. eapply nth_error_In; eauto.
  - intros q Hq. unfold get_current_pair in Hq. apply Hp.
    rewrite (skipn_nth_error _ _ _ _ Hq). left. reflexivity.
Qed.

Lemma loser_is_out_witness :
  exists s s' s'',
    reachable ["A"; "B"; "C"; "D"] 0 s
    /\ get_current_pair s = Some ("A", "B")
    /\ select Key_Left s = Ok s'
    /\ run_from s' [Key_Left; Key_Left] = Ok s''
    /\ counter_get (winner_counts s'') "B" = counter_get (winner_counts s) "B"
    /\ ~ In "B" (round_winners s'')
    /\ final_winner s'' <> Some "B"
    /\ (forall q, get_current_pair s'' = Some q ->
                  fst q <> "B" /\ snd q <> "B").
Proof.
  eexists. eexists. eexists.
  split; [reach_by ["A"; "B"; "C"; "D"] (@nil pick)|].
  split; [reflexivity|].
  split; [vm_compute; reflexivity|].
  split; [vm_compute; reflexivity|].
  refine (loser_is_out ["A"; "B"; "C"; "D"] 0 _ _ _ Key_Left ("A", "B")
                       [Key_Left; Key_Left] _ _ _ _ _ _ _).
  - distinct_fonts.
  - reach_by ["A"; "B"; "C"; "D"] (@nil pick).
  - reflexivity.
  - reflexivity.
  - simpl. discriminate.
  - vm_compute; reflexivity.
  - vm_compute; reflexivity.
Defined.

Lemma separated_nth (ps : list (font * font)) :
  separated ps ->
  forall i j p q,
    i < j -> nth_error ps i = Some p -> nth_error ps j = Some q ->
    fst p <> fst q /\ fst p <> snd q /\ snd p <> fst q /\ snd p <> snd q.
Proof.
  induction ps as [|p0 ps IH]; intros Hs i j p q Hij Hi Hj.
  - destruct i; discriminate.
  - destruct Hs as [H0 Hs]. destruct j as [|j]; [lia|].
    cbn [nth_error] in Hj. destruct i as [|i].
    + cbn [nth_error] in Hi. injection Hi as <-.
      rewrite Forall_forall in H0. apply H0. eapply nth_error_In; eauto.
    + cbn [nth_error] in Hi. apply (IH Hs i j); [lia|assumption..].
Qed.

(** X15.  On an input without repeated fonts no font is in two pairs of
    the same round: two different pairs of a round have no font in
    common.  (The two entries of one pair can be the same font: the
    duplicated last winner.) *)
Theorem font_in_one_pair_of_round
    (fonts : list font) (n : nat) (s : FontTesterApp)
    (i j : nat) (p q : font * font) :
  NoDup fonts -> reachable fonts n s ->
  i < j ->
  nth_error (pairs (current_round_fonts s)) i = Some p ->
  nth_error (pairs (current_round_fonts s)) j = Some q ->
  fst p <> fst q /\ fst p <> snd q /\ snd p <> fst q /\ snd p <> snd q.
Proof.
  intros Hnd R Hij Hi Hj.
  eapply separated_nth; eauto.
  apply (ti_separated fonts s). apply (reachable_tally fonts n s Hnd R).
Qed.

Lemma font_in_one_pair_of_round_witness :
  exists s,
    reachable ["A"; "B"; "C"; "D"; "E"; "F"] 3 s
    /\ nth_error (pairs (current_round_fonts s)) 0 = Some ("A", "C")
    /\ nth_error (pairs (current_round_fonts s)) 1 = Some ("E", "E")
    /\ "A" <> "E" /\ "A" <> "E" /\ "C" <> "E" /\ "C" <> "E".
Proof.
  eexists.
  split; [reach_by ["A"; "B"; "C"; "D"; "E"; "F"]
                   [Key_Left; Key_Left; Key_Left]|].
  split; [reflexivity|]. split; [reflexivity|].
  refine (font_in_one_pair_of_round ["A"; "B"; "C"; "D"; "E"; "F"] 3 _
            0 1 ("A", "C") ("E", "E") _ _ _ _ _).
  - distinct_fonts.
  - reach_by ["A"; "B"; "C"; "D"; "E"; "F"] [Key_Left; Key_Left; Key_Left].
  - lia.
  - reflexivity.
  - reflexivity.
Defined.

(** X16.  On an input without repeated fonts a font's count is the
    number of rounds it has won: the winners of the current round have
    [round_number] wins, the fonts of the pairs still to be judged have
    [round_number - 1], and no font has more wins than [round_number]. *)
Theorem counts_follow_rounds
    (fonts : list font) (n : nat) (s : FontTesterApp) :
  NoDup fonts -> reachable fonts n s ->
  (forall f, counter_get (winner_counts s) f <= round_number s)
  /\ (forall f, In f (round_winners s) ->
                counter_get (winner_counts s) f = round_number s)
  /\ (forall i p,
        current_pair_index s <= i ->
        nth_error (pairs (current_round_fonts s)) i = Some p ->
        counter_get (winner_counts s) (fst p) = round_number s - 1
        /\ counter_get (winner_counts s) (snd p) = round_number s - 1).
Proof.
  intros Hnd R. pose proof (reachable_tally fonts n s Hnd R) as T.
  split; [|split].
  - intro f. destruct (in_dec string_dec f (round_winners s)) as [H|H].
    + rewrite (ti_won fonts s T f H). lia.
    + pose proof (ti_lost fonts s T f H). lia.
  - apply (ti_won fonts s T).
  - intros i p Hi Ep.
    destruct (ti_waiting fonts s T p) as [H1 H2]; [|lia].
    replace i with (current_pair_index s + (i - current_pair_index s))
      in Ep by lia.
    rewrite <- nth_error_skipn in Ep. eapply nth_error_In; eauto.
Qed.

Lemma counts_follow_rounds_witness :
  exists s,
    reachable ["A"; "B"; "C"; "D"] 2 s
    /\ forall f, counter_get (winner_counts s) f <= round_number s.
Proof.
  eexists. split.
  - reach_by ["A"; "B"; "C"; "D"] [Key_Left; Key_Right].
  - refine (proj1 (counts_follow_rounds ["A"; "B"; "C"; "D"] 2 _ _ _)).
    + distinct_fonts.
    + reach_by ["A"; "B"; "C"; "D"] [Key_Left; Key_Right].
Defined.

Lemma odd_input_last_font_dropped_witness :
  exists s,
    reachable ["A"; "B"; "C"; "D"; "E"] 2 s
    /\ counter_get (winner_counts s) (last ["A"; "B"; "C"; "D"; "E"] "") = 0.
Proof.
  eexists. split.
  - reach_by ["A"; "B"; "C"; "D"; "E"] [Key_Left; Key_Right].
  - refine (proj1 (odd_input_last_font_dropped
                     ["A"; "B"; "C"; "D"; "E"] 2 _ _ _ _)).
    + distinct_fonts.
    + reflexivity.
    + reach_by ["A"; "B"; "C"; "D"; "E"] [Key_Left; Key_Right].
Defined.

(** ** The filters of the font list *)

Lemma all_ascii_chars (f : string) :
  all_ascii f = true <->
  Forall (fun c => nat_of_ascii c < 128) (list_ascii_of_string f).
Proof.
  induction f as [|c f IH]; cbn [all_ascii list_ascii_of_string].
  - split; [constructor|reflexivity].
  - rewrite andb_true_iff, IH, Nat.ltb_lt. split.
    + intros [H1 H2]. constructor; assumption.
    + intro H. inversion H; subst. split; assumption.
Qed.

Lemma prefix_at (f : string) :
  prefix "@" f = true <-> exists rest, f = String "@" rest.
Proof.
  destruct f as [|c f]; cbn [prefix].
  - split; [discriminate|intros [rest H]; discriminate].
  - destruct (ascii_dec "@" c) as [<-|N].
    + split; [intros _; eauto|intros _; destruct f; reflexivity].
    + split; [discriminate|intros [rest H]; injection H; congruence].
Qed.

Lemma filter_twice (A : Type) (p : A -> bool) (l : list A) :
  filter p (filter p l) = filter p l.
Proof.
  induction l as [|x l IH]; cbn [filter]; [reflexivity|].
  destruct (p x) eqn:E; cbn [filter]; [rewrite E, IH|]; auto.
Qed.

Lemma filter_swap (A : Type) (p q : A -> bool) (l : list A) :
  filter p (filter q l) = filter q (filter p l).
Proof.
  induction l as [|x l IH]; cbn [filter]; [reflexivity|].
  destruct (p x) eqn:Ep; destruct (q x) eqn:Eq; cbn [filter];
    rewrite ?Ep, ?Eq, IH; reflexivity.
Qed.

Lemma filter_narrow (A : Type) (p q : A -> bool) (l : list A) :
  (forall x, p x = true -> q x = true) ->
  filter p (filter q l) = filter p l.
Proof.
  intro H. induction l as [|x l IH]; cbn [filter]; [reflexivity|].
  destruct (q x) eqn:Eq; cbn [filter]; rewrite IH; [reflexivity|].
  destruct (p x) eqn:Ep; [|reflexivity].
  rewrite (H x Ep) in Eq. discriminate.
Qed.



Lemma string_app_assoc (x y z : string) :
  ((x ++ y) ++ z)%string = (x ++ (y ++ z))%string.
Proof.
  induction x as [|c x IH]; cbn [String.append]; [reflexivity|].
  rewrite IH. reflexivity.
Qed.

Lemma prefix_iff (a b : string) :
  prefix a b = true <-> exists y, b = (a ++ y)%string.
Proof.
  revert b. induction a as [|c a IH]; intro b.
  - split; [intros _; exists b; reflexivity|].
    intros _. destruct b; reflexivity.
  - destruct b as [|d b]; cbn [prefix String.append].
    + split; [discriminate|intros [y H]; discriminate].
    + destruct (ascii_dec c d) as [->|N].
      * rewrite IH. split; intros [y H]; exists y.
        -- rewrite H. reflexivity.
        -- injection H. auto.
      * split; [discriminate|]. intros [y H]. injection H. congruence.
Qed.

Lemma contains_iff (a b : string) :
  contains a b = true <-> exists x y, b = (x ++ a ++ y)%string.
Proof.
  induction b as [|d b IH]; cbn [contains].
  - rewrite orb_false_r, prefix_iff. split.
    + intros [y H]. exists EmptyString, y. exact H.
    + intros (x & y & H). destruct x; [|discriminate]. eauto.
  - rewrite orb_true_iff, prefix_iff, IH. split.
    + intros [[y H]|(x & y & H)].
      * exists EmptyString, y. exact H.
      * exists (String d x), y. cbn [String.append]. rewrite H. reflexivity.
    + intros (x & y & H). destruct x as [|c x]; cbn [String.append] in H.
      * left. eauto.
      * right. injection H as _ H. eauto.
Qed.

Lemma contains_trans (a b c : string) :
  contains a b = true -> contains b c = true -> contains a c = true.
Proof.
  rewrite !contains_iff. intros (x & y & ->) (x' & y' & ->).
  exists (x' ++ x)%string, (y ++ y')%string.
  rewrite !string_app_assoc. reflexivity.
Qed.

Lemma contains_empty (b : string) : contains "" b = true.
Proof. apply contains_iff. exists EmptyString, b. reflexivity. Qed.

(** X19.  [filter_fonts_by_string] with the empty string returns the
    list unchanged, since the empty string occurs in every name
    (Python's [str.lower] maps the empty string to itself). *)
Theorem filter_by_empty_string_keeps_all
    (lower : string -> string) (fonts : list font) :
  lower "" = "" -> filter_fonts_by_string lower fonts "" = fonts.
Proof.
  intro H. unfold filter_fonts_by_string. rewrite H.
  induction fonts as [|f fonts IH]; cbn [filter]; [reflexivity|].
  rewrite contains_empty, IH. reflexivity.
Qed.

Lemma filter_by_empty_string_keeps_all_witness :
  filter_fonts_by_string ascii_lower ["Arial"; "Courier New"] ""
  = ["Arial"; "Courier New"].
Proof. apply filter_by_empty_string_keeps_all. reflexivity. Defined.

(** X20.  Filtering by a string narrows the result of filtering by any
    part of it: when the lowered [part] occurs in the lowered [whole],
    every name kept for [whole] is kept for [part], and filtering for
    [whole] after [part] gives the same list as filtering for [whole]
    alone. *)
Theorem filter_by_longer_string_narrows
    (lower : string -> string) (fonts : list font) (part whole : string) :
  contains (lower part) (lower whole) = true ->
  filter_fonts_by_string lower (filter_fonts_by_string lower fonts part) whole
  = filter_fonts_by_string lower fonts whole
  /\ incl (filter_fonts_by_string lower fonts whole)
          (filter_fonts_by_string lower fonts part).
Proof.
  intro H. unfold filter_fonts_by_string.
  assert (Himp : forall f, contains (lower whole) (lower f) = true ->
                           contains (lower part) (lower f) = true).
  { intros f Hf. eapply contains_trans; eauto. }
  split.
  - apply filter_narrow, Himp.
  - intros f Hf. rewrite filter_In in Hf |- *. destruct Hf. auto.
Qed.

Lemma filter_by_longer_string_narrows_witness :
  filter_fonts_by_string ascii_lower
    (filter_fonts_by_string ascii_lower
       ["Arial"; "Arial Black"; "Courier New"] "ARIAL") "Arial B"
  = filter_fonts_by_string ascii_lower
      ["Arial"; "Arial Black"; "Courier New"] "Arial B".
Proof.
  refine (proj1 (filter_by_longer_string_narrows ascii_lower _ _ _ _)).
  reflexivity.
Defined.

(** X21.  The two filters can be applied in either order with the same
    result, the result holds only names of the input, and a list without
    repeated names stays without repeated names through both: the list
    handed on for the tournament has no font twice if the list of
    families has none. *)
Theorem filters_commute_and_keep_distinct
    (lower : string -> string) (fonts : list font) (filter_string : string) :
  filter_fonts_by_string lower (filter_english_fonts fonts) filter_string
  = filter_english_fonts (filter_fonts_by_string lower fonts filter_string)
  /\ incl (filter_fonts_by_string lower (filter_english_fonts fonts)
                                  filter_string) fonts
  /\ (NoDup fonts ->
      NoDup (filter_fonts_by_string lower (filter_english_fonts fonts)
                                    filter_string)).
Proof.
  unfold filter_fonts_by_string, filter_english_fonts. split; [|split].
  - apply filter_swap.
  - intros f Hf. rewrite !filter_In in Hf. tauto.
  - intro H. apply NoDup_filter, NoDup_filter, H.
Qed.

Lemma filters_commute_and_keep_distinct_witness :
  NoDup (filter_fonts_by_string ascii_lower
           (filter_english_fonts ["Arial"; "@Batang"; "arial black"])
           "ARIAL").
Proof.
  refine (proj2 (proj2 (filters_commute_and_keep_distinct ascii_lower
            ["Arial"; "@Batang"; "arial black"] "ARIAL")) _).
  distinct_fonts.
Defined.

Example filter_by_string_example :
  filter_fonts_by_string ascii_lower
    ["Arial"; "Courier New"; "arial black"; "Times"] "ARIAL"
  = ["Arial"; "arial black"].
Proof. reflexivity. Qed.

(** ** The last click *)

(** X22.  The click that ends the tournament decides it: when a recorded
    pick leads to the result, the final winner is the font that was on
    the chosen panel, it is the only winner of the last round, and that
    round had a single pair. *)
Theorem last_pick_is_the_winner
    (fonts : list font) (n : nat) (s s' : FontTesterApp) (k : pick) :
  reachable fonts n s ->
  selection_enabled s = true ->
  select k s = Ok s' ->
  is_finished s' = true ->
  final_winner s'
  = Some (match k with
          | Key_Left => left_font_label s
          | Key_Right => right_font_label s
          end)
  /\ round_winners s = []
  /\ length (pairs (current_round_fonts s)) = 1
  /\ round_number s' = round_number s.
Proof.
  intros R Hsel E F.
  pose proof (reachable_shape fonts n s R) as I.
  pose proof (si_panels s I Hsel) as Hp.
  pose proof (si_pending s I Hsel) as Hpend.
  pose proof (si_cursor s I) as Hc.
  destruct (select_outcome k s s' Hsel E) as (p & Ep & O).
  rewrite Hp in Ep. injection Ep as <-.
  unfold is_finished in F.
  destruct O as [q Eq ->|q Eq L Eq' ->|Eq L ->];
    cbn [show_pair record_winner next_round result_shown selection_enabled]
      in F; try (rewrite Hsel in F; discriminate).
  rewrite length_app in L. cbn [length] in L.
  assert (Hw : round_winners s = [])
    by (destruct (round_winners s); [reflexivity|cbn [length] in L; lia]).
  apply nth_error_None in Eq.
  unfold final_winner.
  cbn [result_shown record_winner round_winners round_number
       current_round_fonts].
  rewrite Hw in *. cbn [length] in Hc. split; [|split; [|split]].
  - destruct k; reflexivity.
  - reflexivity.
  - lia.
  - reflexivity.
Qed.

Lemma last_pick_is_the_winner_witness :
  exists s s',
    reachable ["A"; "B"; "C"; "D"] 2 s
    /\ select Key_Right s = Ok s'
    /\ final_winner s' = Some (right_font_label s).
Proof.
  eexists. eexists.
  split; [reach_by ["A"; "B"; "C"; "D"] [Key_Left; Key_Right]|].
  split; [vm_compute; reflexivity|].
  refine (proj1 (last_pick_is_the_winner
                   ["A"; "B"; "C"; "D"] 2 _ _ Key_Right _ _ _ _)).
  - reach_by ["A"; "B"; "C"; "D"] [Key_Left; Key_Right].
  - reflexivity.
  - vm_compute; reflexivity.
  - reflexivity.
Defined.
